(** * Regex-crossword solver: a shallow embedding of [solver/regex_engine.py]
      and [solver/backtracking.py], with the properties of the design
      document checked against it.

    Python integers are [Z], strings are [string] (one [ascii] per code
    point below 256), the grid is a list of rows of cell strings that
    [solve] updates in place, and an exception is a value of [exn].  *)

From Stdlib Require Import ZArith Ascii String Lia Bool.
From stdpp Require Import base list strings.

Local Open Scope Z_scope.

(** ** Exceptions and results *)

(** The exceptions the modelled code can raise.  [NotModelled] is not a Python
    exception: it marks a pattern that uses syntax of the [re] module that the
    model below does not interpret, so no result is claimed for it.
    [InvalidPatternError] is the loader's error of the design document. *)
Inductive exn : Type :=
  | IndexError
  | ZeroDivisionError
  | ReError
  | InvalidPatternError
  | NotModelled.

Inductive outcome (A : Type) : Type :=
  | Ret (a : A)
  | Raise (e : exn).
Arguments Ret {A} a.
Arguments Raise {A} e.

(** Sequencing: the first exception raised ends the computation. *)
#[global] Instance outcome_bind : MBind outcome := fun A B k m =>
  match m with
  | Ret a => k a
  | Raise e => Raise e
  end.

#[global] Instance outcome_ret : MRet outcome := @Ret.

Definition of_option {A} (e : exn) (o : option A) : outcome A :=
  match o with
  | Some a => Ret a
  | None => Raise e
  end.

(** ** Python sequence indexing *)

(** [l[i]] for a Python integer [i]: indices [0 .. len-1] count from the
    front, [-len .. -1] from the back, anything else raises [IndexError]. *)
Definition py_norm (len : nat) (i : Z) : option nat :=
  if (0 <=? i) && (i <? Z.of_nat len) then Some (Z.to_nat i)
  else if (- Z.of_nat len <=? i) && (i <? 0) then Some (Z.to_nat (Z.of_nat len + i))
  else None.

Definition py_get {A} (l : list A) (i : Z) : outcome A :=
  of_option IndexError (n ← py_norm (length l) i; l !! n).

Definition py_set {A} (l : list A) (i : Z) (x : A) : outcome (list A) :=
  of_option IndexError (n ← py_norm (length l) i; Some (<[n:=x]> l)).

(** [range(n)] *)
Definition range (n : Z) : list Z :=
  map Z.of_nat (seq 0 (Z.to_nat n)).

(** [sep.join(parts)] with [sep = ""] *)
Definition join (parts : list string) : string :=
  foldr String.append EmptyString parts.

(** [sub in text] on Python strings: [sub] occurs as a contiguous substring. *)
Fixpoint str_in (sub text : string) : bool :=
  String.prefix sub text ||
  match text with
  | EmptyString => false
  | String _ rest => str_in sub rest
  end.

(** ** The [re] module *)

(** Abstract syntax of the patterns the model interprets. *)
Inductive regex : Type :=
  | RVoid
  | REps
  | RChr (c : ascii)
  | RAny
  | RCat (r s : regex)
  | RAlt (r s : regex)
  | RStar (r : regex).

(** The language of a pattern. *)
Inductive lang : regex -> list ascii -> Prop :=
  | lang_eps : lang REps []
  | lang_chr c : lang (RChr c) [c]
  | lang_any c : c <> "010"%char -> lang RAny [c]
  | lang_cat r s u v : lang r u -> lang s v -> lang (RCat r s) (u ++ v)
  | lang_alt_l r s u : lang r u -> lang (RAlt r s) u
  | lang_alt_r r s u : lang s u -> lang (RAlt r s) u
  | lang_star_nil r : lang (RStar r) []
  | lang_star_cons r u v : lang r u -> lang (RStar r) v -> lang (RStar r) (u ++ v).

(** Matching by derivatives. *)
Fixpoint nullable (r : regex) : bool :=
  match r with
  | RVoid => false
  | REps => true
  | RChr _ => false
  | RAny => false
  | RCat r s => nullable r && nullable s
  | RAlt r s => nullable r || nullable s
  | RStar _ => true
  end.

Fixpoint deriv (a : ascii) (r : regex) : regex :=
  match r with
  | RVoid => RVoid
  | REps => RVoid
  | RChr c => if Ascii.eqb a c then REps else RVoid
  | RAny => if Ascii.eqb a "010" then RVoid else REps
  | RCat r s =>
      if nullable r then RAlt (RCat (deriv a r) s) (deriv a s)
      else RCat (deriv a r) s
  | RAlt r s => RAlt (deriv a r) (deriv a s)
  | RStar r => RCat (deriv a r) (RStar r)
  end.

(** The whole of [s] is in the language of [r]. *)
Fixpoint accepts (r : regex) (s : list ascii) : bool :=
  match s with
  | [] => nullable r
  | a :: s' => accepts (deriv a r) s'
  end.

(** Some prefix of [s] is in the language of [r]. *)
Fixpoint accepts_prefix (r : regex) (s : list ascii) : bool :=
  nullable r ||
  match s with
  | [] => false
  | a :: s' => accepts_prefix (deriv a r) s'
  end.

(** *** Parsing a pattern

    The dialect: literal characters, [.], grouping [( )], alternation [|] and
    the quantifiers [*], [+], [?].  A group being parsed is a [frame]: the
    branches of its alternation that are finished and the items of the branch
    in progress, both most recent first. *)
Record frame : Type := Frame { alts : list regex; items : list regex }.

Definition empty_frame : frame := Frame [] [].

Definition build_seq (its : list regex) : regex :=
  fold_left (fun acc r => RCat r acc) its REps.

Definition build_alt (done : list regex) (last : regex) : regex :=
  fold_left (fun acc r => RAlt r acc) done last.

Definition close_frame (f : frame) : regex :=
  build_alt (alts f) (build_seq (items f)).

Definition push_item (r : regex) (f : frame) : frame :=
  Frame (alts f) (r :: items f).

Definition quantify (q : ascii) (r : regex) : regex :=
  if Ascii.eqb q "*" then RStar r
  else if Ascii.eqb q "+" then RCat r (RStar r)
  else RAlt r REps.

Definition is_quantifier (c : ascii) : bool :=
  Ascii.eqb c "*" || Ascii.eqb c "+" || Ascii.eqb c "?".

(** Characters that start syntax outside the dialect: classes, counted
    repetition, escapes and anchors. *)
Definition is_unmodelled (c : ascii) : bool :=
  Ascii.eqb c "[" || Ascii.eqb c "{" || Ascii.eqb c "\" ||
  Ascii.eqb c "^" || Ascii.eqb c "$".

(** One pass over the pattern.  [rep] tells that the previous character was a
    quantifier; [top] is the innermost open group and [stack] the groups
    around it.  [ReError] is raised where [re.compile] raises [re.error]:
    a quantifier with nothing before it or directly after another quantifier,
    and parentheses that do not balance. *)
Fixpoint parse_loop (cs : list ascii) (rep : bool) (top : frame)
    (stack : list frame) : outcome regex :=
  match cs with
  | [] =>
      match stack with
      | [] => Ret (close_frame top)
      | _ :: _ => Raise ReError
      end
  | c :: cs' =>
      if Ascii.eqb c "(" then
        match cs' with
        | "?"%char :: _ => Raise NotModelled
        | _ => parse_loop cs' false empty_frame (top :: stack)
        end
      else if Ascii.eqb c ")" then
        match stack with
        | [] => Raise ReError
        | parent :: stack' =>
            parse_loop cs' false (push_item (close_frame top) parent) stack'
        end
      else if Ascii.eqb c "|" then
        parse_loop cs' false (Frame (build_seq (items top) :: alts top) []) stack
      else if is_quantifier c then
        if rep then
          if Ascii.eqb c "*" then Raise ReError else Raise NotModelled
        else
          match items top with
          | [] => Raise ReError
          | r :: its =>
              parse_loop cs' true (Frame (alts top) (quantify c r :: its)) stack
          end
      else if is_unmodelled c then Raise NotModelled
      else if Ascii.eqb c "." then parse_loop cs' false (push_item RAny top) stack
      else parse_loop cs' false (push_item (RChr c) top) stack
  end.

(** [re.compile(pattern)] *)
Definition re_compile (pattern : string) : outcome regex :=
  parse_loop (list_ascii_of_string pattern) false empty_frame [].

(** [re.match(pattern, text) is not None]: the pattern matches at the start
    of [text], not necessarily up to its end. *)
Definition re_match (pattern text : string) : outcome bool :=
  r ← re_compile pattern;
  Ret (accepts_prefix r (list_ascii_of_string text)).

(** [re.fullmatch(pattern, text) is not None]: the pattern matches the whole
    of [text]. *)
Definition re_fullmatch (pattern text : string) : outcome bool :=
  r ← re_compile pattern;
  Ret (accepts r (list_ascii_of_string text)).

(** ** solver/regex_engine.py *)

Definition check_regex (pattern text : string) : outcome bool :=
  if str_in "" text then re_match pattern text
  else re_fullmatch pattern text.

(** ** The puzzle and the grid *)

(** The dictionary [puzzle], with the four keys the solver reads. *)
Record puzzle : Type := Puzzle {
  size : Z;
  alphabet : list string;
  row_regex : list string;
  col_regex : list string
}.

(** The grid: a list of rows, each a list of cells; a cell holds a letter or
    the empty string. *)
Abbreviation grid := (list (list string)).

(** [grid[row][col]] *)
Definition get_cell (g : grid) (row col : Z) : outcome string :=
  r ← py_get g row;
  py_get r col.

(** [grid[row][col] = x] *)
Definition set_cell (g : grid) (row col : Z) (x : string) : outcome grid :=
  r ← py_get g row;
  r' ← py_set r col x;
  py_set g row r'.

(** ["".join(grid[row])] *)
Definition row_string (g : grid) (row : Z) : outcome string :=
  r ← py_get g row;
  Ret (join r).

(** ["".join([grid[r][col] for r in range(size)])] *)
Definition col_string (g : grid) (size col : Z) : outcome string :=
  cells ← mapM (fun r => get_cell g r col) (range size);
  Ret (join cells).

(** Modelled from the spec: [solver/grid.py] is not among the sources.
    [empty_grid(n)] is the n-by-n grid whose cells all hold the empty
    sentinel, each row a list of its own. *)
Definition empty_grid (n : Z) : grid :=
  replicate (Z.to_nat n) (replicate (Z.to_nat n) EmptyString).

(** ** solver/backtracking.py *)

(** The position passed to the recursive call. *)
Definition next_row (size row col : Z) : Z := row + (col + 1) / size.
Definition next_col (size col : Z) : Z := (col + 1) mod size.

(** The two tests of the loop body, after [letter] has been written to the
    cell: both strings are built first, then the row pattern is looked up and
    checked, and the column pattern only if the row passed. *)
Definition checks (p : puzzle) (g : grid) (row col : Z) : outcome bool :=
  rs ← row_string g row;
  cs ← col_string g (size p) col;
  rp ← py_get (row_regex p) row;
  ok ← check_regex rp rs;
  if (ok : bool) then
    cp ← py_get (col_regex p) col;
    check_regex cp cs
  else Ret false.

(** A call returns its result together with the grid as it has left it, or
    [None] when the call depth allowed by the fuel is used up. *)
Definition result : Type := option (outcome bool * grid).

(** On an exception the grid stays as it was when the exception was raised. *)
Definition step (g : grid) (m : outcome grid) (k : grid -> result) : result :=
  match m with
  | Ret g' => k g'
  | Raise e => Some (Raise e, g)
  end.

(** The [for letter in puzzle["alphabet"]] loop followed by the two lines
    after it; [rec] is the recursive call at the next position. *)
Fixpoint try_letters (rec : grid -> result) (p : puzzle) (row col : Z)
    (letters : list string) (g : grid) : result :=
  match letters with
  | [] =>
      step g (set_cell g row col EmptyString) (fun g' => Some (Ret false, g'))
  | letter :: rest =>
      step g (set_cell g row col letter) (fun g1 =>
        match checks p g1 row col with
        | Raise e => Some (Raise e, g1)
        | Ret false => try_letters rec p row col rest g1
        | Ret true =>
            match rec g1 with
            | None => None
            | Some (Ret true, g2) => Some (Ret true, g2)
            | Some (Ret false, g2) => try_letters rec p row col rest g2
            | Some (Raise e, g2) => Some (Raise e, g2)
            end
        end)
  end.

(** [solve(grid, puzzle, row, col)].  One unit of fuel is one call frame. *)
Fixpoint solve (fuel : nat) (g : grid) (p : puzzle) (row col : Z) : result :=
  match fuel with
  | O => None
  | S fuel' =>
      if row =? size p then Some (Ret true, g)
      else if size p =? 0 then Some (Raise ZeroDivisionError, g)
      else
        try_letters
          (fun g1 => solve fuel' g1 p (next_row (size p) row col)
                           (next_col (size p) col))
          p row col (alphabet p) g
  end.

(** ** main.py *)

Definition malformed (pattern : string) : bool :=
  match re_compile pattern with
  | Raise ReError => true
  | _ => false
  end.

Definition outside_dialect (pattern : string) : bool :=
  match re_compile pattern with
  | Raise NotModelled => true
  | _ => false
  end.

(** Modelled from the spec: [utils/data_loader.py] is not among the sources.
    The loader hands over the puzzle it has read, unless one of its row or
    column patterns is not a well-formed regular expression, which it reports
    as [InvalidPatternError].  Only this check of the loader is modelled; the
    argument stands for the content of the puzzle file. *)
Definition load_puzzle (raw : puzzle) : outcome puzzle :=
  let patterns := row_regex raw ++ col_regex raw in
  if existsb malformed patterns then Raise InvalidPatternError
  else if existsb outside_dialect patterns then Raise NotModelled
  else Ret raw.

(** The script: load, make the empty grid, solve, print the grid.  The value
    of [solve] is not looked at; the result is the grid that is printed, or
    the exception that ended the run. *)
Definition main (fuel : nat) (raw : puzzle) : option (outcome grid) :=
  match load_puzzle raw with
  | Raise e => Some (Raise e)
  | Ret p =>
      match solve fuel (empty_grid (size p)) p 0 0 with
      | None => None
      | Some (Ret _, g) => Some (Ret g)
      | Some (Raise e, _) => Some (Raise e)
      end
  end.

(** ** Puzzles used as examples *)

(** The 2-by-2 puzzle of the design document. *)
Definition puzzle_ab : puzzle :=
  Puzzle 2 ["A"; "B"] ["AB"; "BA"] ["AB"; "BA"].

(** A 2-by-2 puzzle whose patterns all ask for the single letter A. *)
Definition puzzle_single_a : puzzle :=
  Puzzle 2 ["A"] ["A"; "A"] ["A"; "A"].

(** A puzzle whose second row pattern has a parenthesis left open. *)
Definition puzzle_bad_pattern : puzzle :=
  Puzzle 2 ["A"; "B"] ["A.*"; "(B"] ["A.*"; "B.*"].

(** ** Relations used to state the properties *)

(** A cell is below another when it holds the same value or has been emptied;
    a grid is below another of the same shape when each of its cells is. *)
Definition cleared_cell (x' x : string) : Prop := x' = x \/ x' = "".
Definition cleared (g' g : grid) : Prop := Forall2 (Forall2 cleared_cell) g' g.

(** Every cell holds the empty sentinel. *)
Definition all_empty (g : grid) : Prop := Forall (Forall (fun cell => cell = "")) g.

(** The exceptions a call can end with: an index out of range, a division by
    a zero size, or what compiling one of the puzzle's patterns raises. *)
Definition raised_by (p : puzzle) (e : exn) : Prop :=
  e = IndexError \/ e = ZeroDivisionError \/
  exists pattern, pattern ∈ row_regex p ++ col_regex p /\ re_compile pattern = Raise e.

(** ** Cells by position *)

(** The cell in row [a], column [b], counted from the front. *)
Definition cell_at (g : grid) (a b : nat) : option string :=
  r ← g !! a; r !! b.

(** Position (a, b) comes before (row, col) in row-major order. *)
Definition before (a b : nat) (row col : Z) : Prop :=
  Z.of_nat a < row \/ (Z.of_nat a = row /\ Z.of_nat b < col).

(** Two grids with the same number of rows and the same length of each row. *)
Definition same_shape (g' g : grid) : Prop :=
  Forall2 (fun r' r : list string => length r' = length r) g' g.

(** Every cell from position (row, col) on, in row-major order, is empty. *)
Definition empty_from (g : grid) (row col : Z) : Prop :=
  forall a b x, cell_at g a b = Some x -> before a b row col \/ x = "".

(** The row test and the column test of the loop body, each on its own. *)
Definition row_ok (p : puzzle) (g : grid) (i : Z) : Prop :=
  exists pattern rs, py_get (row_regex p) i = Ret pattern /\
    row_string g i = Ret rs /\ check_regex pattern rs = Ret true.

Definition col_ok (p : puzzle) (g : grid) (j : Z) : Prop :=
  exists pattern cs, py_get (col_regex p) j = Ret pattern /\
    col_string g (size p) j = Ret cs /\ check_regex pattern cs = Ret true.

(** The grid has a cell at every position of the n-by-n square. *)
Definition fits (n : Z) (g : grid) : Prop :=
  forall a b, Z.of_nat a < n -> Z.of_nat b < n -> is_Some (cell_at g a b).

(** Compiling one of the puzzle's patterns raises [e]. *)
Definition pattern_error (p : puzzle) (e : exn) : Prop :=
  exists pattern, pattern ∈ row_regex p ++ col_regex p /\ re_compile pattern = Raise e.

(** [before] as a test. *)
Definition beforeb (a b : nat) (row col : Z) : bool :=
  (Z.of_nat a <? row) || ((Z.of_nat a =? row) && (Z.of_nat b <? col)).

(** The grid [g] as the search sees it while it tests cell (row, col): the
    cells up to that one as in [g], the cells after it still empty. *)
Definition upto (g : grid) (row col : Z) : grid :=
  imap (fun a r =>
    imap (fun b x => if beforeb a b row (col + 1) then x else EmptyString) r) g.

(** A candidate solution: a size-by-size grid of letters of the alphabet. *)
Definition filling (p : puzzle) (a : grid) : Prop :=
  same_shape a (empty_grid (size p)) /\
  forall i j, 0 <= i < size p -> 0 <= j < size p ->
    exists x, get_cell a i j = Ret x /\ x ∈ alphabet p.

(** The candidate passes the two tests of the loop body at every cell from
    (row, col) on, each test made when the search would make it. *)
Definition passes_from (p : puzzle) (a : grid) (row col : Z) : Prop :=
  forall i j, 0 <= i < size p -> 0 <= j < size p ->
    ~ before (Z.to_nat i) (Z.to_nat j) row col ->
    checks p (upto a i j) i j = Ret true.

(** * Properties *)
(** ** The matcher decides the language of the pattern *)

Lemma nullable_spec r : nullable r = true <-> lang r [].
Proof.
  induction r as [| | c | | r IHr s IHs | r IHr s IHs | r IHr]; simpl.
  - split; [discriminate|]. inversion 1.
  - split; [constructor|reflexivity].
  - split; [discriminate|]. inversion 1.
  - split; [discriminate|]. inversion 1.
  - rewrite andb_true_iff, IHr, IHs. split.
    + intros [Hr Hs]. apply (lang_cat _ _ [] [] Hr Hs).
    + inversion 1 as [| | |r' s' u v Hu Hv Eq E| | | |]; subst.
      apply app_eq_nil in E as [-> ->]. auto.
  - rewrite orb_true_iff, IHr, IHs. split.
    + intros [H|H]; [now apply lang_alt_l|now apply lang_alt_r].
    + inversion 1; subst; auto.
  - split; [constructor|reflexivity].
Qed.

(** A non-empty word of a starred pattern starts with a non-empty word of the
    pattern. *)
Lemma lang_star_cons_inv r a w :
  lang (RStar r) (a :: w) ->
  exists u v, w = u ++ v /\ lang r (a :: u) /\ lang (RStar r) v.
Proof.
  intros H. remember (RStar r) as sr eqn:Er. remember (a :: w) as aw eqn:Ew.
  revert Er Ew.
  induction H as [| | | | | | |r' u v Hu IHu Hv IHv]; try discriminate.
  intros [= ->] Ew. destruct u as [|b u]; simpl in Ew.
  - now apply IHv.
  - injection Ew as -> <-. eauto.
Qed.

Lemma deriv_spec a r : forall w, lang (deriv a r) w <-> lang r (a :: w).
Proof.
  induction r as [| | c | | r IHr s IHs | r IHr s IHs | r IHr]; intros w; simpl.
  - split; inversion 1.
  - split; inversion 1.
  - destruct (Ascii.eqb_spec a c) as [->|Hne]; split; inversion 1; subst;
      try constructor; congruence.
  - destruct (Ascii.eqb_spec a "010") as [->|Hne]; split; inversion 1; subst;
      try (now constructor); congruence.
  - assert (Hcat : lang (RCat (deriv a r) s) w ->  lang (RCat r s) (a :: w)).
    { inversion 1 as [| | |r' s' u v Hu Hv Eq E| | | |]; subst.
      apply IHr in Hu. apply (lang_cat _ _ (a :: u) v Hu Hv). }
    assert (Hinv : lang (RCat r s) (a :: w) ->
                   lang (RCat (deriv a r) s) w \/ (lang r [] /\ lang s (a :: w))).
    { inversion 1 as [| | |r' s' u v Hu Hv Eq E| | | |]; subst.
      destruct u as [|b u]; simpl in E.
      - subst v. now right.
      - injection E as -> <-. left. apply lang_cat; [now apply IHr|assumption]. }
    destruct (nullable r) eqn:N; split.
    + inversion 1; subst; [auto|].
      apply (lang_cat _ _ [] (a :: w)); [now apply nullable_spec|now apply IHs].
    + intros [H|[_ H]]%Hinv; [now apply lang_alt_l|apply lang_alt_r; now apply IHs].
    + exact Hcat.
    + intros [H|[H _]]%Hinv; [exact H|].
      apply nullable_spec in H. congruence.
  - split.
    + inversion 1; subst; [apply lang_alt_l; now apply IHr|apply lang_alt_r; now apply IHs].
    + inversion 1; subst; [apply lang_alt_l; now apply IHr|apply lang_alt_r; now apply IHs].
  - split.
    + inversion 1 as [| | |r' s' u v Hu Hv Eq E| | | |]; subst.
      apply IHr in Hu. apply (lang_star_cons _ (a :: u) v Hu Hv).
    + intros (u & v & -> & Hu & Hv)%lang_star_cons_inv.
      apply lang_cat; [now apply IHr|assumption].
Qed.

Lemma accepts_spec r w : accepts r w = true <-> lang r w.
Proof.
  revert r. induction w as [|a w IH]; intros r; simpl.
  - apply nullable_spec.
  - rewrite IH. apply deriv_spec.
Qed.

Lemma accepts_prefix_spec r w :
  accepts_prefix r w = true <-> exists u v, w = u ++ v /\ lang r u.
Proof.
  revert r. induction w as [|a w IH]; intros r; simpl; rewrite orb_true_iff.
  - rewrite nullable_spec. split.
    + intros [H|H]; [|discriminate]. now exists [], [].
    + intros (u & v & E & H). symmetry in E. apply app_eq_nil in E as [-> ->]. now left.
  - rewrite nullable_spec, IH. split.
    + intros [H|(u & v & -> & H)].
      * now exists [], (a :: w).
      * exists (a :: u), v. split; [reflexivity|now apply deriv_spec].
    + intros (u & v & E & H). destruct u as [|b u]; simpl in E.
      * now left.
      * injection E as <- ->. right. exists u, v. split; [reflexivity|].
        now apply deriv_spec.
Qed.

(** A text matched in full is also matched at its start. *)
Lemma accepts_accepts_prefix r w : accepts r w = true -> accepts_prefix r w = true.
Proof.
  rewrite accepts_spec, accepts_prefix_spec. intros H.
  exists w, []. now rewrite app_nil_r.
Qed.

(** ** The pattern matcher *)

Lemma prefix_empty (text : string) : String.prefix "" text = true.
Proof. destruct text; reflexivity. Qed.

Lemma str_in_empty (text : string) : str_in "" text = true.
Proof. destruct text; reflexivity. Qed.

(** C9: for every pattern and every text, [check_regex] returns the result of
    the start-anchored match [re.match]; the test that selects the branch,
    whether the empty string occurs in the text, is true of every text, so the
    [re.fullmatch] branch is never taken. *)
Theorem check_regex_is_re_match (pattern text : string) :
  str_in "" text = true /\ check_regex pattern text = re_match pattern text.
Proof.
  split; [apply str_in_empty|].
  unfold check_regex. now rewrite str_in_empty.
Qed.

(** C2: a row whose cells are all assigned, here A and B, is still checked
    with prefix semantics: the pattern A is reported to match the text AB,
    which it does not match in its entirety. *)
Theorem check_regex_full_text_prefix_mode :
  Forall (fun cell => cell <> "") ["A"; "B"] /\
  check_regex "A" (join ["A"; "B"]) = Ret true /\
  re_fullmatch "A" (join ["A"; "B"]) = Ret false.
Proof.
  split; [|split; reflexivity].
  repeat constructor; discriminate.
Qed.

(** C5: on the pattern A+B the matcher rejects the partial text made of the
    cells A, A and an empty cell, accepts the text AAB and rejects the
    text AA. *)
Theorem check_regex_a_plus_b :
  join ["A"; "A"; ""] = "AA" /\
  check_regex "A+B" (join ["A"; "A"; ""]) = Ret false /\
  check_regex "A+B" "AAB" = Ret true /\
  check_regex "A+B" "AA" = Ret false.
Proof. repeat split; reflexivity. Qed.

(** ** The solver on the example puzzles *)

(** C4: on the 2-by-2 puzzle with rows AB, BA and columns AB, BA the solver
    returns failure and leaves the grid empty: neither letter passes the row
    check in the first cell. *)
Theorem solve_puzzle_ab_fails :
  solve 5 (empty_grid 2) puzzle_ab 0 0 = Some (Ret false, [[""; ""]; [""; ""]]).
Proof. vm_compute. reflexivity. Qed.

(** C1: on the puzzle whose four patterns are all the single letter A the
    solver returns success with every cell A, although the row AA and the
    column AA do not match the pattern A in full. *)
Theorem solve_success_not_fullmatch :
  solve 5 (empty_grid 2) puzzle_single_a 0 0
    = Some (Ret true, [["A"; "A"]; ["A"; "A"]]) /\
  row_string [["A"; "A"]; ["A"; "A"]] 0 = Ret "AA" /\
  col_string [["A"; "A"]; ["A"; "A"]] 2 0 = Ret "AA" /\
  re_fullmatch "A" "AA" = Ret false.
Proof. repeat split; vm_compute; reflexivity. Qed.

(** ** The search position *)

Lemma try_letters_no_rec p row col letters g g' :
  try_letters (fun _ => None) p row col letters g <> Some (Ret true, g').
Proof.
  revert g. induction letters as [|letter rest IH]; intros g; simpl.
  - destruct (set_cell g row col ""); simpl; congruence.
  - destruct (set_cell g row col letter) as [g1|e]; simpl; [|congruence].
    destruct (checks p g1 row col) as [[|]|e]; [congruence|apply IH|congruence].
Qed.

(** C8: for a column inside the grid the recursive call is made at
    (row, col+1), or at (row+1, 0) when col+1 is the size; a call at row = size
    returns success at once with the grid untouched, and a call at any other
    row cannot return success without a recursive call. *)
Theorem search_position (p : puzzle) (g : grid) (row col : Z) :
  0 <= col < size p ->
  (next_row (size p) row col, next_col (size p) col)
    = (if col + 1 =? size p then (row + 1, 0) else (row, col + 1)) /\
  (forall fuel, row <> size p ->
     solve (S fuel) g p row col
       = try_letters
           (fun g1 => solve fuel g1 p (next_row (size p) row col)
                            (next_col (size p) col))
           p row col (alphabet p) g) /\
  (forall fuel, row = size p -> solve (S fuel) g p row col = Some (Ret true, g)) /\
  ((exists g', solve 1 g p row col = Some (Ret true, g')) <-> row = size p).
Proof.
  intros Hcol. unfold next_row, next_col. repeat split.
  - destruct (Z.eqb_spec (col + 1) (size p)) as [E|E].
    + rewrite E, Z.div_same, Z.mod_same by lia. reflexivity.
    + rewrite Z.div_small, Z.mod_small by lia. f_equal. lia.
  - intros fuel Hrow. simpl.
    destruct (Z.eqb_spec row (size p)); [contradiction|].
    destruct (Z.eqb_spec (size p) 0); [lia|reflexivity].
  - intros fuel ->. simpl. now rewrite Z.eqb_refl.
  - intros [g' H]. simpl in H.
    destruct (Z.eqb_spec row (size p)) as [E|E]; [exact E|].
    destruct (size p =? 0); [discriminate|].
    now apply try_letters_no_rec in H.
  - intros ->. exists g. simpl. now rewrite Z.eqb_refl.
Qed.

Lemma search_position_witness :
  0 <= 1 < size puzzle_ab /\
  (next_row (size puzzle_ab) 0 1, next_col (size puzzle_ab) 1) = (1, 0) /\
  solve 1 [[""]] puzzle_ab 2 1 = Some (Ret true, [[""]]).
Proof.
  assert (Hcol : 0 <= 1 < size puzzle_ab) by (simpl; lia).
  split; [exact Hcol|].
  destruct (search_position puzzle_ab [[""]] 0 1 Hcol) as (Hnext & _).
  destruct (search_position puzzle_ab [[""]] 2 1 Hcol) as (_ & _ & Hdone & _).
  split; [exact Hnext | exact (Hdone 0%nat eq_refl)].
Defined.

(** ** Failure leaves no letter behind *)

Lemma py_norm_lt len i n : py_norm len i = Some n -> (n < len)%nat.
Proof.
  unfold py_norm. intros H.
  destruct (Z.leb_spec 0 i), (Z.ltb_spec i (Z.of_nat len)); simpl in H;
    try (injection H as <-; lia);
    destruct (Z.leb_spec (- Z.of_nat len) i), (Z.ltb_spec i 0); simpl in H;
    try discriminate; injection H as <-; lia.
Qed.

Lemma py_get_Ret {A} (l : list A) i x :
  py_get l i = Ret x <-> exists n, py_norm (length l) i = Some n /\ l !! n = Some x.
Proof.
  unfold py_get. destruct (py_norm (length l) i) as [n|]; simpl.
  - destruct (l !! n) eqn:E; simpl; split.
    + intros [= ->]. eauto.
    + intros (m & [= <-] & H). congruence.
    + discriminate.
    + intros (m & [= <-] & H). congruence.
  - split; [discriminate|]. intros (m & H & _). discriminate.
Qed.

Lemma py_set_Ret {A} (l : list A) i x l' :
  py_set l i x = Ret l' <-> exists n, py_norm (length l) i = Some n /\ l' = <[n:=x]> l.
Proof.
  unfold py_set. destruct (py_norm (length l) i) as [n|]; simpl; split.
  - intros [= <-]. eauto.
  - intros (m & [= <-] & ->). reflexivity.
  - discriminate.
  - intros (m & H & _). discriminate.
Qed.

(** What a successful write to a cell does to the grid. *)
Lemma set_cell_Ret (g : grid) row col x g' :
  set_cell g row col x = Ret g' <->
  exists n m r, py_norm (length g) row = Some n /\ g !! n = Some r /\
    py_norm (length r) col = Some m /\ g' = <[n:=<[m:=x]> r]> g.
Proof.
  unfold set_cell. split.
  - destruct (py_get g row) as [r|] eqn:Hr; simpl; [|discriminate].
    destruct (py_set r col x) as [r'|] eqn:Hr'; simpl; [|discriminate].
    intros H. apply py_get_Ret in Hr as (n & Hn & Hr).
    apply py_set_Ret in Hr' as (m & Hm & ->).
    apply py_set_Ret in H as (n' & Hn' & ->).
    assert (n' = n) as -> by congruence.
    exists n, m, r. auto.
  - intros (n & m & r & Hn & Hr & Hm & ->).
    assert (py_get g row = Ret r) as -> by (apply py_get_Ret; eauto).
    simpl. assert (py_set r col x = Ret (<[m:=x]> r)) as ->
      by (apply py_set_Ret; eauto).
    simpl. apply py_set_Ret; eauto.
Qed.

Lemma set_cell_overwrite (g g1 : grid) row col x y :
  set_cell g row col x = Ret g1 -> set_cell g1 row col y = set_cell g row col y.
Proof.
  intros (n & m & r & Hn & Hr & Hm & ->)%set_cell_Ret.
  assert (set_cell g row col y = Ret (<[n:=<[m:=y]> r]> g)) as ->
    by (apply set_cell_Ret; exists n, m, r; auto).
  apply set_cell_Ret. exists n, m, (<[m:=x]> r).
  rewrite !length_insert. repeat split; auto.
  - apply list_lookup_insert_eq. eauto using lookup_lt_Some.
  - now rewrite !list_insert_insert_eq.
Qed.

Lemma cleared_cell_refl x : cleared_cell x x.
Proof. now left. Qed.

Lemma cleared_cell_trans x y z : cleared_cell x y -> cleared_cell y z -> cleared_cell x z.
Proof. unfold cleared_cell. intros [->| ->] [->| ->]; auto. Qed.

Lemma cleared_refl g : cleared g g.
Proof.
  apply Forall2_same_length_lookup_2; [reflexivity|].
  intros i r r' H1 H2. assert (r = r') as <- by congruence.
  apply Forall2_same_length_lookup_2; [reflexivity|].
  intros j x y Hx Hy. assert (x = y) as <- by congruence. apply cleared_cell_refl.
Qed.

Lemma cleared_trans g1 g2 g3 : cleared g1 g2 -> cleared g2 g3 -> cleared g1 g3.
Proof.
  unfold cleared. intros H12 H23.
  eapply Forall2_trans; [|exact H12|exact H23].
  intros r1 r2 r3 Ha Hb.
  eapply Forall2_trans; [|exact Ha|exact Hb].
  apply cleared_cell_trans.
Qed.

(** Clearing a cell yields a grid below the one it was cleared in. *)
Lemma set_cell_empty_cleared (g g' : grid) row col :
  set_cell g row col "" = Ret g' -> cleared g' g.
Proof.
  intros (n & m & r & Hn & Hr & Hm & ->)%set_cell_Ret.
  rewrite <- (list_insert_id g n r Hr) at 2.
  apply Forall2_insert; [apply cleared_refl|].
  apply py_norm_lt in Hm. destruct (lookup_lt_is_Some_2 r m Hm) as [x Hx].
  rewrite <- (list_insert_id r m x Hx) at 2.
  apply Forall2_insert; [|now right].
  apply Forall2_same_length_lookup_2; [reflexivity|].
  intros j a b Ha Hb. assert (a = b) as <- by congruence. apply cleared_cell_refl.
Qed.

(** Writing the same value to the same cell of two related grids keeps them
    related, and succeeds on both or on neither. *)
Lemma set_cell_mono (g2 g1 a : grid) row col x :
  cleared g2 g1 -> set_cell g2 row col x = Ret a ->
  exists b, set_cell g1 row col x = Ret b /\ cleared a b.
Proof.
  intros Hc (n & m & r2 & Hn & Hr & Hm & ->)%set_cell_Ret.
  pose proof (Forall2_length _ _ _ Hc) as Hlen.
  destruct (Forall2_lookup_l _ _ _ _ _ Hc Hr) as (r1 & Hr1 & Hrows).
  pose proof (Forall2_length _ _ _ Hrows) as Hlen'.
  exists (<[n:=<[m:=x]> r1]> g1). split.
  - apply set_cell_Ret. exists n, m, r1. rewrite <- Hlen, <- Hlen'. auto.
  - apply Forall2_insert; [exact Hc|].
    apply Forall2_insert; [exact Hrows|apply cleared_cell_refl].
Qed.

Lemma try_letters_fail (rec : grid -> result) p row col (g0 : grid) :
  (forall g g', rec g = Some (Ret false, g') -> cleared g' g) ->
  forall letters h g',
    (forall hx, set_cell h row col "" = Ret hx -> cleared hx g0) ->
    try_letters rec p row col letters h = Some (Ret false, g') ->
    cleared g' g0.
Proof.
  intros Hrec. induction letters as [|letter rest IH]; intros h g' Hinv; simpl.
  - destruct (set_cell h row col "") as [hx|e] eqn:E; simpl; [|discriminate].
    intros [= <-]. now apply Hinv.
  - destruct (set_cell h row col letter) as [g1|e] eqn:E; simpl; [|discriminate].
    assert (Hinv1 : forall hx, set_cell g1 row col "" = Ret hx -> cleared hx g0).
    { intros hx. rewrite (set_cell_overwrite _ _ _ _ _ _ E). apply Hinv. }
    destruct (checks p g1 row col) as [[|]|e']; [|now apply IH|discriminate].
    destruct (rec g1) as [[[[|]|e'] g2]|] eqn:R; try discriminate.
    apply IH. intros hx Hx.
    destruct (set_cell_mono _ _ _ _ _ _ (Hrec _ _ R) Hx) as (b & Hb & Hab).
    eapply cleared_trans; [exact Hab|]. now apply Hinv1.
Qed.

(** A call that returns failure has only cleared cells. *)
Lemma solve_fail_cleared fuel : forall g p row col g',
  solve fuel g p row col = Some (Ret false, g') -> cleared g' g.
Proof.
  induction fuel as [|fuel IH]; intros g p row col g'; simpl; [discriminate|].
  destruct (row =? size p); [discriminate|].
  destruct (size p =? 0); [discriminate|].
  apply try_letters_fail.
  - intros h h'. apply IH.
  - intros hx. apply set_cell_empty_cleared.
Qed.

Lemma cleared_all_empty g' g : cleared g' g -> all_empty g -> g' = g.
Proof.
  unfold cleared, all_empty. induction 1 as [|r' r g' g Hr Hg IH]; [reflexivity|].
  intros [Hre Hge]%Forall_cons. f_equal; [|now apply IH].
  clear -Hr Hre. induction Hr as [|x' x r' r Hx Hr IH]; [reflexivity|].
  apply Forall_cons in Hre as [-> Hre]. f_equal; [|now apply IH].
  destruct Hx as [->| ->]; reflexivity.
Qed.

Lemma empty_grid_all_empty n : all_empty (empty_grid n).
Proof.
  unfold all_empty, empty_grid.
  apply Forall_replicate, Forall_replicate. reflexivity.
Qed.

(** C3: when [solve], started at the first cell of a grid whose cells are all
    empty, returns failure, the grid it leaves is that same all-empty grid. *)
Theorem solve_failure_grid_empty (fuel : nat) (p : puzzle) (g g' : grid) :
  all_empty g ->
  solve fuel g p 0 0 = Some (Ret false, g') ->
  g' = g /\ all_empty g'.
Proof.
  intros Hg H. apply solve_fail_cleared in H.
  assert (g' = g) as -> by now apply cleared_all_empty. now split.
Qed.

Lemma solve_failure_grid_empty_witness :
  all_empty (empty_grid 2) /\
  solve 5 (empty_grid 2) puzzle_ab 0 0 = Some (Ret false, empty_grid 2) /\
  empty_grid 2 = empty_grid 2 /\ all_empty (empty_grid 2).
Proof.
  split; [apply empty_grid_all_empty|]. split; [reflexivity|].
  apply (solve_failure_grid_empty 5 puzzle_ab (empty_grid 2) (empty_grid 2)).
  - apply empty_grid_all_empty.
  - reflexivity.
Defined.

(** ** Termination *)

Lemma try_letters_total (rec : grid -> result) p row col letters :
  (forall h, exists res, rec h = Some res) ->
  forall g, exists res, try_letters rec p row col letters g = Some res.
Proof.
  intros Hrec. induction letters as [|letter rest IH]; intros g; simpl.
  - destruct (set_cell g row col ""); simpl; eauto.
  - destruct (set_cell g row col letter) as [g1|e]; simpl; [|eauto].
    destruct (checks p g1 row col) as [[|]|e]; [|apply IH|eauto].
    destruct (Hrec g1) as [[[[|]|e] g2] ->]; eauto.
Qed.

(** Inside the grid the next position is the next index in row-major order
    and is again a position the search may be at. *)
Lemma next_position_later (n row col : Z) :
  0 <= row < n -> 0 <= col < n ->
  next_row n row col * n + next_col n col = row * n + col + 1 /\
  0 <= next_row n row col <= n /\ 0 <= next_col n col < n.
Proof.
  intros Hrow Hcol. unfold next_row, next_col.
  destruct (Z.eq_dec (col + 1) n) as [E|E].
  - rewrite E, Z.div_same, Z.mod_same by lia. lia.
  - rewrite Z.div_small, Z.mod_small by lia. lia.
Qed.

Lemma solve_total_from (p : puzzle) (fuel : nat) : forall g row col,
  0 <= row <= size p -> 0 <= col < Z.max (size p) 1 ->
  (Z.to_nat (size p * size p - (row * size p + col)) < fuel)%nat ->
  exists res, solve fuel g p row col = Some res.
Proof.
  induction fuel as [|fuel IH]; intros g row col Hrow Hcol Hfuel; [lia|].
  simpl. destruct (Z.eqb_spec row (size p)) as [E|E]; [eauto|].
  destruct (Z.eqb_spec (size p) 0) as [E0|E0]; [eauto|].
  apply try_letters_total. intros h.
  destruct (next_position_later (size p) row col) as (Hidx & Hr & Hc); [lia..|].
  apply IH; [lia|lia|]. rewrite Hidx.
  assert (row * size p + col + 1 <= size p * size p) by nia.
  lia.
Qed.

(** C10: for a size N >= 0 and a start with 0 <= row <= N and
    0 <= col < max(N,1), a call below row N recurses on the position whose
    row-major index is one more, and [solve] returns once the fuel exceeds the
    number of cells from the start to the end of the grid; from any such
    start N*N nested calls below the first are enough. *)
Theorem solve_terminates (p : puzzle) (g : grid) (row col : Z) :
  0 <= size p -> 0 <= row <= size p -> 0 <= col < Z.max (size p) 1 ->
  (row < size p ->
     next_row (size p) row col * size p + next_col (size p) col
       = row * size p + col + 1 /\
     0 <= next_row (size p) row col <= size p /\
     0 <= next_col (size p) col < size p) /\
  (forall fuel,
     (Z.to_nat (size p * size p - (row * size p + col)) < fuel)%nat ->
     exists res, solve fuel g p row col = Some res) /\
  (exists res, solve (S (Z.to_nat (size p * size p))) g p row col = Some res).
Proof.
  intros Hn Hrow Hcol. split; [|split].
  - intros Hlt. apply next_position_later; lia.
  - intros fuel Hfuel. now apply solve_total_from.
  - apply solve_total_from; [assumption..|].
    assert (0 <= row * size p + col) by nia. lia.
Qed.

Lemma solve_terminates_witness :
  0 <= size puzzle_ab /\ 0 <= 0 <= size puzzle_ab /\
  0 <= 0 < Z.max (size puzzle_ab) 1 /\
  exists res, solve 5 (empty_grid 2) puzzle_ab 0 0 = Some res.
Proof.
  assert (H0 : 0 <= size puzzle_ab) by (simpl; lia).
  assert (H1 : 0 <= 0 <= size puzzle_ab) by (simpl; lia).
  assert (H2 : 0 <= 0 < Z.max (size puzzle_ab) 1) by (simpl; lia).
  repeat (split; [assumption|]).
  exact (proj2 (proj2 (solve_terminates puzzle_ab (empty_grid 2) 0 0 H0 H1 H2))).
Defined.

(** ** The fuel *)

Lemma try_letters_mono (rec rec' : grid -> result) p row col :
  (forall g r, rec g = Some r -> rec' g = Some r) ->
  forall letters g r,
    try_letters rec p row col letters g = Some r ->
    try_letters rec' p row col letters g = Some r.
Proof.
  intros Hrec. induction letters as [|letter rest IH]; intros g r; simpl; [auto|].
  destruct (set_cell g row col letter) as [g1|e]; simpl; [|auto].
  destruct (checks p g1 row col) as [[|]|e]; [|apply IH|auto].
  destruct (rec g1) as [[[[|]|e] g2]|] eqn:R; [| | |discriminate];
    rewrite (Hrec _ _ R); auto.
Qed.

(** More fuel does not change a result already obtained. *)
Lemma solve_fuel_mono (fuel : nat) : forall fuel' g p row col r,
  (fuel <= fuel')%nat ->
  solve fuel g p row col = Some r -> solve fuel' g p row col = Some r.
Proof.
  induction fuel as [|fuel IH]; intros fuel' g p row col r Hle; [discriminate|].
  destruct fuel' as [|fuel']; [lia|]. simpl.
  destruct (row =? size p); [auto|].
  destruct (size p =? 0); [auto|].
  apply try_letters_mono. intros h r'. apply IH. lia.
Qed.

(** ** Exceptions *)

Lemma py_get_raise {A} (l : list A) i e : py_get l i = Raise e -> e = IndexError.
Proof.
  unfold py_get. destruct (_ ≫= _); simpl; [discriminate|]. now intros [= <-].
Qed.

Lemma py_set_raise {A} (l : list A) i x e : py_set l i x = Raise e -> e = IndexError.
Proof.
  unfold py_set. destruct (_ ≫= _); simpl; [discriminate|]. now intros [= <-].
Qed.

Lemma py_get_elem {A} (l : list A) i x : py_get l i = Ret x -> x ∈ l.
Proof.
  intros (n & _ & H)%py_get_Ret. eapply list_elem_of_lookup_2, H.
Qed.

Lemma get_cell_raise g row col e : get_cell g row col = Raise e -> e = IndexError.
Proof.
  unfold get_cell. destruct (py_get g row) as [r|e'] eqn:E; simpl.
  - apply py_get_raise.
  - intros [= <-]. eapply py_get_raise, E.
Qed.

Lemma set_cell_raise g row col x e : set_cell g row col x = Raise e -> e = IndexError.
Proof.
  unfold set_cell. destruct (py_get g row) as [r|e'] eqn:E; simpl.
  - destruct (py_set r col x) as [r'|e'] eqn:E'; simpl.
    + apply py_set_raise.
    + intros [= <-]. eapply py_set_raise, E'.
  - intros [= <-]. eapply py_get_raise, E.
Qed.

Lemma row_string_raise g row e : row_string g row = Raise e -> e = IndexError.
Proof.
  unfold row_string. destruct (py_get g row) as [r|e'] eqn:E; simpl; [discriminate|].
  intros [= <-]. eapply py_get_raise, E.
Qed.

Lemma col_cells_raise g col rows e :
  mapM (fun r => get_cell g r col) rows = Raise e -> e = IndexError.
Proof.
  induction rows as [|r rows IH]; simpl; [discriminate|].
  destruct (get_cell g r col) as [x|e'] eqn:E; simpl.
  - destruct (mapM _ rows) as [xs|e']; simpl; [discriminate|].
    intros [= <-]. now apply IH.
  - intros [= <-]. eapply get_cell_raise, E.
Qed.

Lemma col_string_raise g n col e : col_string g n col = Raise e -> e = IndexError.
Proof.
  unfold col_string. destruct (mapM _ _) as [xs|e'] eqn:E; simpl; [discriminate|].
  intros [= <-]. eapply col_cells_raise, E.
Qed.

(** [check_regex] raises only what compiling its pattern raises. *)
Lemma check_regex_raise pattern text e :
  check_regex pattern text = Raise e -> re_compile pattern = Raise e.
Proof.
  unfold check_regex, re_match, re_fullmatch.
  destruct (str_in "" text), (re_compile pattern); simpl; congruence.
Qed.

Lemma checks_raise p g row col e : checks p g row col = Raise e -> raised_by p e.
Proof.
  unfold checks.
  destruct (row_string g row) as [rs|e1] eqn:E1; simpl;
    [|intros [= <-]; left; eapply row_string_raise, E1].
  destruct (col_string g (size p) col) as [cs|e2] eqn:E2; simpl;
    [|intros [= <-]; left; eapply col_string_raise, E2].
  destruct (py_get (row_regex p) row) as [rp|e3] eqn:E3; simpl;
    [|intros [= <-]; left; eapply py_get_raise, E3].
  destruct (check_regex rp rs) as [[|]|e4] eqn:E4; simpl; [|discriminate|].
  - destruct (py_get (col_regex p) col) as [cp|e5] eqn:E5; simpl;
      [|intros [= <-]; left; eapply py_get_raise, E5].
    intros H%check_regex_raise. right; right. exists cp. split; [|exact H].
    apply elem_of_app. right. eapply py_get_elem, E5.
  - intros [= <-]. apply check_regex_raise in E4. right; right. exists rp.
    split; [|exact E4]. apply elem_of_app. left. eapply py_get_elem, E3.
Qed.

Lemma try_letters_raise (rec : grid -> result) p row col :
  (forall g g' e, rec g = Some (Raise e, g') -> raised_by p e) ->
  forall letters g g' e,
    try_letters rec p row col letters g = Some (Raise e, g') -> raised_by p e.
Proof.
  intros Hrec. induction letters as [|letter rest IH]; intros g g' e; simpl.
  - destruct (set_cell g row col "") as [h|e'] eqn:E; simpl; [discriminate|].
    intros [= <- _]. left. eapply set_cell_raise, E.
  - destruct (set_cell g row col letter) as [g1|e'] eqn:E; simpl;
      [|intros [= <- _]; left; eapply set_cell_raise, E].
    destruct (checks p g1 row col) as [[|]|e'] eqn:C;
      [|apply IH|intros [= <- _]; eapply checks_raise, C].
    destruct (rec g1) as [[[[|]|e'] g2]|] eqn:R; try discriminate; [apply IH|].
    intros [= <- _]. eapply Hrec, R.
Qed.

Lemma solve_raise (fuel : nat) : forall g p row col e g',
  solve fuel g p row col = Some (Raise e, g') -> raised_by p e.
Proof.
  induction fuel as [|fuel IH]; intros g p row col e g'; simpl; [discriminate|].
  destruct (row =? size p); [discriminate|].
  destruct (size p =? 0); [intros [= <- _]; right; now left|].
  apply try_letters_raise. intros h h' e'. apply IH.
Qed.

(** Without the loader's check the error of a malformed pattern is raised in
    the middle of the search, at the first cell whose check compiles it. *)
Lemma solve_unvalidated_raises :
  solve 5 (empty_grid 2) puzzle_bad_pattern 0 0
    = Some (Raise ReError, [["A"; "B"]; ["A"; ""]]).
Proof. vm_compute. reflexivity. Qed.

Lemma load_puzzle_Ret raw p :
  load_puzzle raw = Ret p ->
  p = raw /\
  forall pattern, pattern ∈ row_regex raw ++ col_regex raw -> malformed pattern = false.
Proof.
  unfold load_puzzle.
  destruct (existsb malformed _) eqn:E; [discriminate|].
  destruct (existsb outside_dialect _); [discriminate|].
  intros [= <-]. split; [reflexivity|]. intros pattern Hin.
  destruct (malformed pattern) eqn:M; [|reflexivity].
  assert (existsb malformed (row_regex raw ++ col_regex raw) = true); [|congruence].
  apply existsb_exists. exists pattern. split; [|exact M].
  now apply list_elem_of_In.
Qed.

(** C6: with the loader of the design document, a puzzle with a malformed row
    or column pattern makes the program end with [InvalidPatternError] when
    the puzzle is loaded, whatever call depth the search would be allowed,
    and on a puzzle the loader has accepted no call of [solve] ends with
    [re.error]. *)
Theorem invalid_pattern_at_load :
  (forall raw pattern,
     pattern ∈ row_regex raw ++ col_regex raw ->
     re_compile pattern = Raise ReError ->
     load_puzzle raw = Raise InvalidPatternError /\
     forall fuel, main fuel raw = Some (Raise InvalidPatternError)) /\
  (forall raw p fuel g row col r g',
     load_puzzle raw = Ret p ->
     solve fuel g p row col = Some (r, g') ->
     r <> Raise ReError).
Proof.
  split.
  - intros raw pattern Hin Hc.
    assert (L : load_puzzle raw = Raise InvalidPatternError).
    { unfold load_puzzle.
      assert (existsb malformed (row_regex raw ++ col_regex raw) = true) as ->;
        [|reflexivity].
      apply existsb_exists. exists pattern.
      split; [now apply list_elem_of_In|]. unfold malformed. now rewrite Hc. }
    split; [exact L|]. intros fuel. unfold main. now rewrite L.
  - intros raw p fuel g row col r g' [-> Hok]%load_puzzle_Ret Hs ->.
    apply solve_raise in Hs as [H|[H|(pattern & Hin & Hc)]]; [discriminate..|].
    specialize (Hok pattern Hin). unfold malformed in Hok.
    rewrite Hc in Hok. discriminate.
Qed.

Lemma invalid_pattern_at_load_witness :
  main 0 puzzle_bad_pattern = Some (Raise InvalidPatternError) /\
  Ret true <> (Raise ReError : outcome bool).
Proof.
  destruct invalid_pattern_at_load as [Hbad Hgood]. split.
  - refine (proj2 (Hbad puzzle_bad_pattern "(B" _ eq_refl) 0%nat).
    simpl. apply list_elem_of_In. simpl. auto.
  - exact (Hgood puzzle_single_a puzzle_single_a 5%nat (empty_grid 2) 0 0
             (Ret true) [["A"; "A"]; ["A"; "A"]] eq_refl eq_refl).
Defined.

(** * Further properties of the code *)

(** ** The shape of the grid *)

Lemma same_shape_refl g : same_shape g g.
Proof. induction g; constructor; auto. Qed.

Lemma same_shape_trans g1 g2 g3 :
  same_shape g1 g2 -> same_shape g2 g3 -> same_shape g1 g3.
Proof.
  unfold same_shape. intros H12 H23.
  eapply Forall2_trans; [|exact H12|exact H23]. simpl. congruence.
Qed.

Lemma set_cell_same_shape (g g' : grid) row col x :
  set_cell g row col x = Ret g' -> same_shape g' g.
Proof.
  intros (n & m & r & Hn & Hr & Hm & ->)%set_cell_Ret.
  rewrite <- (list_insert_id g n r Hr) at 2.
  apply Forall2_insert; [apply same_shape_refl|]. apply length_insert.
Qed.

Lemma try_letters_same_shape (rec : grid -> result) p row col (g0 : grid) :
  (forall g r g', rec g = Some (r, g') -> same_shape g' g) ->
  forall letters h r g',
    same_shape h g0 ->
    try_letters rec p row col letters h = Some (r, g') -> same_shape g' g0.
Proof.
  intros Hrec. induction letters as [|letter rest IH]; intros h r g' Hh; simpl.
  - destruct (set_cell h row col "") as [hx|e] eqn:E; simpl; intros [= _ <-]; [|exact Hh].
    eapply same_shape_trans; [eapply set_cell_same_shape, E|exact Hh].
  - destruct (set_cell h row col letter) as [g1|e] eqn:E; simpl;
      [|intros [= _ <-]; exact Hh].
    assert (H1 : same_shape g1 g0)
      by (eapply same_shape_trans; [eapply set_cell_same_shape, E|exact Hh]).
    destruct (checks p g1 row col) as [[|]|e];
      [|now apply IH|intros [= _ <-]; exact H1].
    destruct (rec g1) as [[[[|]|e] g2]|] eqn:R; try discriminate;
      pose proof (same_shape_trans _ _ _ (Hrec _ _ _ R) H1) as H2.
    + now intros [= _ <-].
    + now apply IH.
    + now intros [= _ <-].
Qed.

Lemma solve_shape (fuel : nat) (g : grid) (p : puzzle) (row col : Z)
    (r : outcome bool) (g' : grid) :
  solve fuel g p row col = Some (r, g') -> same_shape g' g.
Proof.
  revert g row col r g'.
  induction fuel as [|fuel IH]; intros g row col r g'; simpl; [discriminate|].
  destruct (row =? size p); [intros [= _ <-]; apply same_shape_refl|].
  destruct (size p =? 0); [intros [= _ <-]; apply same_shape_refl|].
  apply try_letters_same_shape; [|apply same_shape_refl].
  intros h r' h'. apply IH.
Qed.

(** However a call of [solve] ends, by True, False or an exception, the grid
    it leaves has as many rows as the grid it was given, each of the same
    length: cells are overwritten, never added or removed. *)
Theorem solve_same_shape (fuel : nat) (g : grid) (p : puzzle) (row col : Z)
    (r : outcome bool) (g' : grid) :
  solve fuel g p row col = Some (r, g') -> same_shape g' g.
Proof. exact (solve_shape fuel g p row col r g'). Qed.

Lemma solve_same_shape_witness :
  solve 5 [[""; ""; "Z"]; [""; ""]] puzzle_single_a 0 0
    = Some (Ret true, [["A"; "A"; "Z"]; ["A"; "A"]]) /\
  same_shape [["A"; "A"; "Z"]; ["A"; "A"]] [[""; ""; "Z"]; [""; ""]].
Proof.
  split; [reflexivity|].
  apply (solve_same_shape 5 [[""; ""; "Z"]; [""; ""]] puzzle_single_a 0 0 (Ret true)).
  reflexivity.
Defined.

(** ** What a call writes *)

Lemma py_norm_nonneg len i n : 0 <= i -> py_norm len i = Some n -> n = Z.to_nat i.
Proof.
  unfold py_norm. intros Hi.
  destruct ((0 <=? i) && (i <? Z.of_nat len)); [now intros [= <-]|].
  destruct (Z.ltb_spec i 0); [lia|]. rewrite andb_false_r. discriminate.
Qed.

Lemma py_get_nonneg {A} (l : list A) i :
  0 <= i -> py_get l i = of_option IndexError (l !! Z.to_nat i).
Proof.
  intros Hi. unfold py_get.
  destruct (py_norm (length l) i) as [n|] eqn:E; simpl.
  - now rewrite (py_norm_nonneg _ _ _ Hi E).
  - rewrite lookup_ge_None_2; [reflexivity|].
    unfold py_norm in E. destruct (Z.leb_spec 0 i); [|lia].
    destruct (Z.ltb_spec i (Z.of_nat (length l))); [discriminate|]. lia.
Qed.

Lemma get_cell_nonneg (g : grid) row col :
  0 <= row -> 0 <= col ->
  get_cell g row col = of_option IndexError (cell_at g (Z.to_nat row) (Z.to_nat col)).
Proof.
  intros Hr Hc. unfold get_cell, cell_at. rewrite (py_get_nonneg g row Hr).
  destruct (g !! Z.to_nat row) as [r|]; simpl; [|reflexivity].
  now apply py_get_nonneg.
Qed.

(** Reading a cell just written gives the value written, also when the
    indices are negative. *)
Lemma set_cell_get_cell (g g' : grid) row col x :
  set_cell g row col x = Ret g' -> get_cell g' row col = Ret x.
Proof.
  intros (n & m & r & Hn & Hr & Hm & ->)%set_cell_Ret.
  unfold get_cell.
  assert (py_get (<[n:=<[m:=x]> r]> g) row = Ret (<[m:=x]> r)) as ->.
  { apply py_get_Ret. exists n. rewrite length_insert. split; [exact Hn|].
    apply list_lookup_insert_eq. eauto using lookup_lt_Some. }
  simpl. apply py_get_Ret. exists m. rewrite length_insert. split; [exact Hm|].
  apply list_lookup_insert_eq. eauto using py_norm_lt.
Qed.

(** A write with indices from the front changes no other cell. *)
Lemma set_cell_cell_at_other (g g' : grid) row col x a b :
  0 <= row -> 0 <= col -> set_cell g row col x = Ret g' ->
  a <> Z.to_nat row \/ b <> Z.to_nat col ->
  cell_at g' a b = cell_at g a b.
Proof.
  intros Hrow Hcol (n & m & r & Hn & Hr & Hm & ->)%set_cell_Ret Hne.
  apply (py_norm_nonneg _ _ _ Hrow) in Hn.
  apply (py_norm_nonneg _ _ _ Hcol) in Hm. subst n m.
  unfold cell_at. destruct (decide (a = Z.to_nat row)) as [->|Ha].
  - rewrite list_lookup_insert_eq by eauto using lookup_lt_Some.
    rewrite Hr. simpl. apply list_lookup_insert_ne. destruct Hne; congruence.
  - now rewrite list_lookup_insert_ne by congruence.
Qed.

(** The position of the recursive call, for a column inside the grid. *)
Lemma next_position_cases (n row col : Z) :
  0 <= col < n ->
  (next_row n row col = row /\ next_col n col = col + 1 /\ col + 1 < n) \/
  (next_row n row col = row + 1 /\ next_col n col = 0 /\ col + 1 = n).
Proof.
  intros Hcol. unfold next_row, next_col.
  destruct (Z.eq_dec (col + 1) n) as [E|E].
  - right. rewrite E, Z.div_same, Z.mod_same by lia. lia.
  - left. rewrite Z.div_small, Z.mod_small by lia. lia.
Qed.

Lemma try_letters_frame (rec : grid -> result) p row col (g0 : grid) :
  0 <= row -> 0 <= col ->
  (forall g r g' a b, rec g = Some (r, g') -> before a b row col ->
     cell_at g' a b = cell_at g a b) ->
  forall letters h r g',
    (forall a b, before a b row col -> cell_at h a b = cell_at g0 a b) ->
    try_letters rec p row col letters h = Some (r, g') ->
    forall a b, before a b row col -> cell_at g' a b = cell_at g0 a b.
Proof.
  intros Hrow Hcol Hrec.
  assert (Hset : forall h h' x a b, set_cell h row col x = Ret h' ->
            before a b row col -> cell_at h' a b = cell_at h a b).
  { intros h h' x a b E Hab.
    apply (set_cell_cell_at_other h h' row col x a b Hrow Hcol E).
    unfold before in Hab. lia. }
  induction letters as [|letter rest IH]; intros h r g' Hh; simpl.
  - destruct (set_cell h row col "") as [hx|e] eqn:E; simpl; intros [= _ <-];
      [|exact Hh].
    intros a b Hab. rewrite (Hset _ _ _ _ _ E Hab). now apply Hh.
  - destruct (set_cell h row col letter) as [g1|e] eqn:E; simpl;
      [|intros [= _ <-]; exact Hh].
    assert (H1 : forall a b, before a b row col -> cell_at g1 a b = cell_at g0 a b).
    { intros a b Hab. rewrite (Hset _ _ _ _ _ E Hab). now apply Hh. }
    destruct (checks p g1 row col) as [[|]|e];
      [|now apply IH|intros [= _ <-]; exact H1].
    destruct (rec g1) as [[[[|]|e] g2]|] eqn:R; try discriminate;
      assert (H2 : forall a b, before a b row col -> cell_at g2 a b = cell_at g0 a b)
        by (intros a b Hab; rewrite (Hrec _ _ _ _ _ R Hab); now apply H1).
    + now intros [= _ <-].
    + now apply IH.
    + now intros [= _ <-].
Qed.

Lemma before_next (n row col : Z) a b :
  0 <= col < n -> before a b row col ->
  before a b (next_row n row col) (next_col n col).
Proof.
  intros Hcol Hab. unfold before in *.
  destruct (next_position_cases n row col Hcol) as [(-> & -> & _)|(-> & -> & _)]; lia.
Qed.

Lemma solve_cells_before (fuel : nat) (g : grid) (p : puzzle) (row col : Z)
    (r : outcome bool) (g' : grid) (a b : nat) :
  0 <= row -> 0 <= col < size p ->
  solve fuel g p row col = Some (r, g') ->
  before a b row col ->
  cell_at g' a b = cell_at g a b.
Proof.
  revert g row col r g' a b.
  induction fuel as [|fuel IH]; intros g row col r g' a b Hrow Hcol; simpl;
    [discriminate|].
  destruct (row =? size p); [now intros [= _ <-]|].
  destruct (size p =? 0); [now intros [= _ <-]|].
  intros H. revert a b. eapply try_letters_frame; [lia|lia| |reflexivity|exact H].
  intros h r' h' a b R Hab. eapply IH; [| |exact R|].
  - destruct (next_position_cases (size p) row col Hcol) as [(-> & _)|(-> & _)]; lia.
  - destruct (next_position_cases (size p) row col Hcol)
      as [(_ & -> & ?)|(_ & -> & ?)]; lia.
  - now apply before_next.
Qed.

(** However a call at a position with 0 <= row and 0 <= col < size ends, the
    cells before that position in row-major order are as they were: the
    search only writes at its own position and after it. *)
Theorem solve_frame (fuel : nat) (g : grid) (p : puzzle) (row col : Z)
    (r : outcome bool) (g' : grid) (a b : nat) :
  0 <= row -> 0 <= col < size p ->
  solve fuel g p row col = Some (r, g') ->
  before a b row col ->
  cell_at g' a b = cell_at g a b.
Proof. exact (solve_cells_before fuel g p row col r g' a b). Qed.

Lemma solve_frame_witness :
  0 <= 0 /\ 0 <= 1 < size puzzle_ab /\
  solve 5 [["A"; ""]; [""; ""]] puzzle_ab 0 1
    = Some (Ret false, [["A"; ""]; [""; ""]]) /\
  before 0 0 0 1 /\
  cell_at [["A"; ""]; [""; ""]] 0 0 = cell_at [["A"; ""]; [""; ""]] 0 0.
Proof.
  assert (H0 : 0 <= 0) by lia.
  assert (H1 : 0 <= 1 < size puzzle_ab) by (simpl; lia).
  assert (H2 : before 0 0 0 1) by (right; simpl; lia).
  repeat (split; [first [assumption | reflexivity]|]).
  exact (solve_frame 5 [["A"; ""]; [""; ""]] puzzle_ab 0 1 (Ret false)
           [["A"; ""]; [""; ""]] 0 0 H0 H1 eq_refl H2).
Defined.

(** ** Backtracking *)

Lemma try_letters_fail_cell (rec : grid -> result) p row col :
  forall letters h g',
    try_letters rec p row col letters h = Some (Ret false, g') ->
    get_cell g' row col = Ret "".
Proof.
  induction letters as [|letter rest IH]; intros h g'; simpl.
  - destruct (set_cell h row col "") as [hx|e] eqn:E; simpl; [|discriminate].
    intros [= <-]. eapply set_cell_get_cell, E.
  - destruct (set_cell h row col letter) as [g1|e]; simpl; [|discriminate].
    destruct (checks p g1 row col) as [[|]|e]; [|apply IH|discriminate].
    destruct (rec g1) as [[[[|]|e] g2]|]; try discriminate. apply IH.
Qed.

(** From any grid and any position, a call that returns False leaves each
    cell either as it found it or empty, and its own cell empty: letters are
    only ever removed by a failed search, also letters that were in the grid
    before the call. *)
Theorem solve_failure_only_clears (fuel : nat) (g : grid) (p : puzzle)
    (row col : Z) (g' : grid) :
  solve fuel g p row col = Some (Ret false, g') ->
  cleared g' g /\ get_cell g' row col = Ret "".
Proof.
  intros H. split; [eapply solve_fail_cleared, H|].
  destruct fuel as [|fuel]; simpl in H; [discriminate|].
  destruct (row =? size p); [discriminate|].
  destruct (size p =? 0); [discriminate|].
  eapply try_letters_fail_cell, H.
Qed.

Lemma solve_failure_only_clears_witness :
  solve 5 [["B"; "A"]; ["B"; "B"]] puzzle_ab 0 1
    = Some (Ret false, [["B"; ""]; ["B"; "B"]]) /\
  cleared [["B"; ""]; ["B"; "B"]] [["B"; "A"]; ["B"; "B"]] /\
  get_cell [["B"; ""]; ["B"; "B"]] 0 1 = Ret "".
Proof.
  split; [reflexivity|].
  apply (solve_failure_only_clears 5 [["B"; "A"]; ["B"; "B"]] puzzle_ab 0 1).
  reflexivity.
Defined.

Lemma cleared_frame_eq (g' g : grid) row col :
  cleared g' g -> empty_from g row col ->
  (forall a b, before a b row col -> cell_at g' a b = cell_at g a b) ->
  g' = g.
Proof.
  intros Hc He Hf. apply list_eq. intros a.
  pose proof (proj1 (Forall2_lookup _ _ _) Hc a) as Ha.
  destruct (g' !! a) as [r'|] eqn:Hg', (g !! a) as [r|] eqn:Hg;
    inversion Ha as [? ? Hr|]; subst; [|reflexivity].
  clear Ha. f_equal. apply list_eq. intros b.
  pose proof (proj1 (Forall2_lookup _ _ _) Hr b) as Hb.
  destruct (r' !! b) as [x'|] eqn:Ex', (r !! b) as [x|] eqn:Ex;
    inversion Hb as [? ? Hx|]; subst; [|reflexivity].
  f_equal.
  assert (Cg : cell_at g a b = Some x) by (unfold cell_at; rewrite Hg; exact Ex).
  assert (Cg' : cell_at g' a b = Some x') by (unfold cell_at; rewrite Hg'; exact Ex').
  destruct (He a b x Cg) as [Hbef| ->].
  - rewrite (Hf a b Hbef) in Cg'. congruence.
  - destruct Hx as [->| ->]; reflexivity.
Qed.

Lemma solve_fail_restores (fuel : nat) (g : grid) (p : puzzle)
    (row col : Z) (g' : grid) :
  0 <= row -> 0 <= col < size p ->
  empty_from g row col ->
  solve fuel g p row col = Some (Ret false, g') ->
  g' = g.
Proof.
  intros Hrow Hcol He H. apply (cleared_frame_eq g' g row col).
  - eapply solve_fail_cleared, H.
  - exact He.
  - intros a b Hab. eapply solve_cells_before; eauto.
Qed.

(** Backtracking undoes itself: when the cells from the call's position on
    are empty, as they are in every recursive call of a search started on an
    empty grid, a call that returns False hands the grid back exactly as it
    received it. *)
Theorem solve_failure_restores (fuel : nat) (g : grid) (p : puzzle)
    (row col : Z) (g' : grid) :
  0 <= row -> 0 <= col < size p ->
  empty_from g row col ->
  solve fuel g p row col = Some (Ret false, g') ->
  g' = g.
Proof. exact (solve_fail_restores fuel g p row col g'). Qed.

Lemma solve_failure_restores_witness :
  0 <= 1 /\ 0 <= 0 < size puzzle_ab /\
  empty_from [["B"; "A"]; [""; ""]] 1 0 /\
  solve 5 [["B"; "A"]; [""; ""]] puzzle_ab 1 0
    = Some (Ret false, [["B"; "A"]; [""; ""]]) /\
  [["B"; "A"]; [""; ""]] = ([["B"; "A"]; [""; ""]] : grid).
Proof.
  assert (H0 : 0 <= 1) by lia.
  assert (H1 : 0 <= 0 < size puzzle_ab) by (simpl; lia).
  assert (H2 : empty_from [["B"; "A"]; [""; ""]] 1 0).
  { intros [|[|a]] [|[|b]] x; simpl; intros [= <-];
      first [now right | left; left; simpl; lia]. }
  repeat (split; [first [assumption | reflexivity]|]).
  exact (solve_failure_restores 5 [["B"; "A"]; [""; ""]] puzzle_ab 1 0
           [["B"; "A"]; [""; ""]] H0 H1 H2 eq_refl).
Defined.

(** ** What success guarantees *)

Lemma checks_true_iff p g row col :
  checks p g row col = Ret true <-> row_ok p g row /\ col_ok p g col.
Proof.
  unfold checks, row_ok, col_ok. split.
  - destruct (row_string g row) as [rs|]; simpl; [|discriminate].
    destruct (col_string g (size p) col) as [cs|]; simpl; [|discriminate].
    destruct (py_get (row_regex p) row) as [rp|]; simpl; [|discriminate].
    destruct (check_regex rp rs) as [[|]|] eqn:E; simpl; [|discriminate..].
    destruct (py_get (col_regex p) col) as [cp|]; simpl; [|discriminate].
    intros H. split; [exists rp, rs|exists cp, cs]; auto.
  - intros [(rp & rs & -> & -> & Hr) (cp & cs & -> & -> & Hc)]. simpl.
    rewrite Hr. simpl. exact Hc.
Qed.

Lemma try_letters_success_inv (rec : grid -> result) p row col :
  forall letters h g',
    try_letters rec p row col letters h = Some (Ret true, g') ->
    exists h1 letter g1, letter ∈ letters /\
      set_cell h1 row col letter = Ret g1 /\
      checks p g1 row col = Ret true /\ rec g1 = Some (Ret true, g').
Proof.
  induction letters as [|letter rest IH]; intros h g'; simpl.
  - destruct (set_cell h row col ""); simpl; discriminate.
  - destruct (set_cell h row col letter) as [g1|e] eqn:E; simpl; [|discriminate].
    assert (Hrest : forall h2, try_letters rec p row col rest h2 = Some (Ret true, g') ->
              exists h1 letter' g1', letter' ∈ letter :: rest /\
                set_cell h1 row col letter' = Ret g1' /\
                checks p g1' row col = Ret true /\ rec g1' = Some (Ret true, g')).
    { intros h2 (h1 & l' & g1' & Hin & Hrest)%IH. exists h1, l', g1'.
      split; [now apply list_elem_of_further|exact Hrest]. }
    destruct (checks p g1 row col) as [[|]|e] eqn:C; [|apply Hrest|discriminate].
    destruct (rec g1) as [[[[|]|e] g2]|] eqn:R; try discriminate; [|apply Hrest].
    intros [= <-]. exists h, letter, g1. repeat split; auto. apply list_elem_of_here.
Qed.

(** Two grids of the same shape that agree on the cells of a row have that
    row in common. *)
Lemma row_agree (g2 g1 : grid) a :
  same_shape g2 g1 -> (forall b, cell_at g2 a b = cell_at g1 a b) ->
  g2 !! a = g1 !! a.
Proof.
  intros Hs Hc. pose proof (proj1 (Forall2_lookup _ _ _) Hs a) as Ha.
  destruct (g2 !! a) as [r2|] eqn:E2, (g1 !! a) as [r1|] eqn:E1;
    inversion Ha as [? ? Hlen|]; subst; [|reflexivity].
  f_equal. apply list_eq. intros b. specialize (Hc b).
  unfold cell_at in Hc. now rewrite E2, E1 in Hc.
Qed.

Lemma row_string_agree (g2 g1 : grid) row :
  0 <= row -> same_shape g2 g1 ->
  (forall b, cell_at g2 (Z.to_nat row) b = cell_at g1 (Z.to_nat row) b) ->
  row_string g2 row = row_string g1 row.
Proof.
  intros Hrow Hs Hc. unfold row_string.
  now rewrite !(py_get_nonneg _ row Hrow), (row_agree g2 g1 _ Hs Hc).
Qed.

Lemma mapM_outcome_ext {A B} (f f' : A -> outcome B) (l : list A) :
  (forall x, x ∈ l -> f x = f' x) -> mapM f l = mapM f' l.
Proof.
  induction l as [|x l IH]; intros H; simpl; [reflexivity|].
  rewrite (H x) by apply list_elem_of_here.
  rewrite IH; [reflexivity|]. intros y Hy. apply H. now apply list_elem_of_further.
Qed.

Lemma elem_of_range (n r : Z) : r ∈ range n -> 0 <= r < n.
Proof.
  unfold range. intros (k & -> & Hk)%list_elem_of_fmap.
  apply list_elem_of_In, in_seq in Hk. lia.
Qed.

Lemma col_string_agree (g2 g1 : grid) n col :
  0 <= col ->
  (forall a, Z.of_nat a < n -> cell_at g2 a (Z.to_nat col) = cell_at g1 a (Z.to_nat col)) ->
  col_string g2 n col = col_string g1 n col.
Proof.
  intros Hcol Hc. unfold col_string.
  rewrite (mapM_outcome_ext (fun r => get_cell g2 r col) (fun r => get_cell g1 r col));
    [reflexivity|].
  intros r Hr%elem_of_range. rewrite !get_cell_nonneg by lia.
  rewrite Hc; [reflexivity|lia].
Qed.

Lemma solve_success_checked (p : puzzle) (fuel : nat) : forall g row col g',
  0 <= row <= size p -> 0 <= col < size p ->
  solve fuel g p row col = Some (Ret true, g') ->
  (forall i, row <= i < size p -> row_ok p g' i) /\
  (forall j, 0 <= j < size p ->
     row < size p - 1 \/ (row = size p - 1 /\ col <= j) -> col_ok p g' j).
Proof.
  induction fuel as [|fuel IH]; intros g row col g' Hrow Hcol; simpl; [discriminate|].
  destruct (Z.eqb_spec row (size p)) as [E|E]; [intros _; split; intros; lia|].
  destruct (size p =? 0); [discriminate|].
  intros (h1 & letter & g1 & _ & _ & [Hr Hc]%checks_true_iff & R)%try_letters_success_inv.
  pose proof (solve_shape _ _ _ _ _ _ _ R) as Hshape.
  destruct (next_position_later (size p) row col) as (_ & Hnr & Hnc); [lia..|].
  assert (Hframe : forall a b,
            before a b (next_row (size p) row col) (next_col (size p) col) ->
            cell_at g' a b = cell_at g1 a b).
  { intros a b Hab. eapply solve_cells_before; [| |exact R|exact Hab]; lia. }
  assert (Hrow_keep : next_row (size p) row col = row + 1 -> row_ok p g' row).
  { intros En. destruct Hr as (pat & rs & Hp & Hs & Hm). exists pat, rs.
    split; [exact Hp|]. split; [|exact Hm]. rewrite <- Hs.
    apply row_string_agree; [lia|exact Hshape|].
    intros b. apply Hframe. left. rewrite En. lia. }
  assert (Hcol_keep : row = size p - 1 -> col_ok p g' col).
  { intros En. destruct Hc as (pat & cs & Hp & Hs & Hm). exists pat, cs.
    split; [exact Hp|]. split; [|exact Hm]. rewrite <- Hs.
    apply col_string_agree; [lia|]. intros a Ha. apply Hframe. unfold before.
    destruct (next_position_cases (size p) row col Hcol)
      as [(-> & -> & ?)|(-> & -> & ?)]; lia. }
  apply IH in R as [IHr IHc]; [|lia..].
  destruct (next_position_cases (size p) row col Hcol)
    as [(En & Ec & ?)|(En & Ec & ?)]; rewrite En in IHr; rewrite En, Ec in IHc; split.
  - intros i Hi. apply IHr. lia.
  - intros j Hj [Hlt|[Heq Hle]]; [apply IHc; lia|].
    destruct (Z.eq_dec j col) as [->|Hne]; [now apply Hcol_keep|apply IHc; lia].
  - intros i Hi. destruct (Z.eq_dec i row) as [->|Hne];
      [now apply Hrow_keep|apply IHr; lia].
  - intros j Hj [Hlt|[Heq Hle]]; [apply IHc; lia|].
    assert (j = col) as -> by lia. now apply Hcol_keep.
Qed.

Lemma solve_success_checks (fuel : nat) (g : grid) (p : puzzle)
    (g' : grid) (i j : Z) :
  solve fuel g p 0 0 = Some (Ret true, g') ->
  0 <= i < size p -> 0 <= j < size p ->
  checks p g' i j = Ret true.
Proof.
  intros H Hi Hj. apply checks_true_iff.
  destruct (solve_success_checked p fuel g 0 0 g') as [Hr Hc]; [lia|lia|exact H|].
  split; [apply Hr; lia|apply Hc; lia].
Qed.

(** When [solve], started at the first cell of any grid, returns True, the two
    tests of the loop body succeed on the final grid for every cell of the
    size-by-size square: every row string and every column string of the grid
    it leaves passes [check_regex] against its pattern. *)
Theorem solve_success_passes_checks (fuel : nat) (g : grid) (p : puzzle)
    (g' : grid) (i j : Z) :
  solve fuel g p 0 0 = Some (Ret true, g') ->
  0 <= i < size p -> 0 <= j < size p ->
  checks p g' i j = Ret true.
Proof. exact (solve_success_checks fuel g p g' i j). Qed.

Lemma solve_success_passes_checks_witness :
  solve 5 (empty_grid 2) puzzle_single_a 0 0
    = Some (Ret true, [["A"; "A"]; ["A"; "A"]]) /\
  0 <= 1 < size puzzle_single_a /\ 0 <= 0 < size puzzle_single_a /\
  checks puzzle_single_a [["A"; "A"]; ["A"; "A"]] 1 0 = Ret true.
Proof.
  assert (H1 : 0 <= 1 < size puzzle_single_a) by (simpl; lia).
  assert (H0 : 0 <= 0 < size puzzle_single_a) by (simpl; lia).
  repeat (split; [first [assumption | reflexivity]|]).
  exact (solve_success_passes_checks 5 (empty_grid 2) puzzle_single_a
           [["A"; "A"]; ["A"; "A"]] 1 0 eq_refl H1 H0).
Defined.

Lemma solve_success_letters (p : puzzle) (fuel : nat) : forall g row col g',
  0 <= row <= size p -> 0 <= col < size p ->
  solve fuel g p row col = Some (Ret true, g') ->
  forall a b, Z.of_nat a < size p -> Z.of_nat b < size p ->
    ~ before a b row col ->
    exists x, cell_at g' a b = Some x /\ x ∈ alphabet p.
Proof.
  induction fuel as [|fuel IH]; intros g row col g' Hrow Hcol; simpl; [discriminate|].
  destruct (Z.eqb_spec row (size p)) as [E|E];
    [intros _ a b Ha Hb Hn; exfalso; apply Hn; left; lia|].
  destruct (size p =? 0); [discriminate|].
  intros (h1 & letter & g1 & Hin & Hset & _ & R)%try_letters_success_inv a b Ha Hb Hn.
  assert (Hnext : 0 <= next_row (size p) row col <= size p /\
                  0 <= next_col (size p) col < size p)
    by (apply next_position_later; lia).
  destruct (decide (a = Z.to_nat row /\ b = Z.to_nat col)) as [[-> ->]|Hne].
  - exists letter. split; [|exact Hin].
    rewrite (solve_cells_before _ _ _ _ _ _ _ (Z.to_nat row) (Z.to_nat col)
               (proj1 (proj1 Hnext)) (proj2 Hnext) R).
    + apply set_cell_get_cell in Hset. rewrite get_cell_nonneg in Hset by lia.
      destruct (cell_at g1 _ _); simpl in Hset; congruence.
    + unfold before.
      destruct (next_position_cases (size p) row col Hcol)
        as [(-> & -> & ?)|(-> & -> & ?)]; lia.
  - apply (IH _ _ _ _ (proj1 Hnext) (proj2 Hnext) R a b Ha Hb).
    unfold before in *.
    destruct (next_position_cases (size p) row col Hcol)
      as [(-> & -> & ?)|(-> & -> & ?)]; lia.
Qed.

Lemma solve_success_get_cell (fuel : nat) (g : grid) (p : puzzle)
    (g' : grid) (i j : Z) :
  solve fuel g p 0 0 = Some (Ret true, g') ->
  0 <= i < size p -> 0 <= j < size p ->
  exists x, get_cell g' i j = Ret x /\ x ∈ alphabet p.
Proof.
  intros H Hi Hj.
  destruct (solve_success_letters p fuel g 0 0 g' ltac:(lia) ltac:(lia) H
              (Z.to_nat i) (Z.to_nat j)) as (x & Hx & Hin); [lia|lia| |].
  - unfold before. lia.
  - exists x. split; [|exact Hin]. rewrite get_cell_nonneg by lia. now rewrite Hx.
Qed.

(** When [solve], started at the first cell of any grid, returns True, every
    cell of the size-by-size square holds a letter of the puzzle's alphabet:
    nothing of the grid it was given is left there. *)
Theorem solve_success_fills (fuel : nat) (g : grid) (p : puzzle)
    (g' : grid) (i j : Z) :
  solve fuel g p 0 0 = Some (Ret true, g') ->
  0 <= i < size p -> 0 <= j < size p ->
  exists x, get_cell g' i j = Ret x /\ x ∈ alphabet p.
Proof. exact (solve_success_get_cell fuel g p g' i j). Qed.

Lemma solve_success_fills_witness :
  solve 5 [["Z"; "Z"]; ["Z"; "Z"]] puzzle_single_a 0 0
    = Some (Ret true, [["A"; "A"]; ["A"; "A"]]) /\
  0 <= 1 < size puzzle_single_a /\ 0 <= 1 < size puzzle_single_a /\
  exists x, get_cell [["A"; "A"]; ["A"; "A"]] 1 1 = Ret x /\
            x ∈ alphabet puzzle_single_a.
Proof.
  assert (H1 : 0 <= 1 < size puzzle_single_a) by (simpl; lia).
  repeat (split; [first [assumption | reflexivity]|]).
  exact (solve_success_fills 5 [["Z"; "Z"]; ["Z"; "Z"]] puzzle_single_a
           [["A"; "A"]; ["A"; "A"]] 1 1 eq_refl H1 H1).
Defined.

(** ** Exceptions on a well-shaped puzzle *)

Lemma py_get_in_range {A} (l : list A) i :
  0 <= i < Z.of_nat (length l) -> exists x, py_get l i = Ret x.
Proof.
  intros Hi. rewrite py_get_nonneg by lia.
  destruct (lookup_lt_is_Some_2 l (Z.to_nat i)) as [x ->]; [lia|]. now exists x.
Qed.

Lemma fits_set_cell n (g : grid) row col x :
  fits n g -> 0 <= row < n -> 0 <= col < n ->
  exists g', set_cell g row col x = Ret g'.
Proof.
  intros Hf Hrow Hcol.
  destruct (Hf (Z.to_nat row) (Z.to_nat col)) as [y Hy]; [lia..|].
  unfold cell_at in Hy. destruct (g !! Z.to_nat row) as [r|] eqn:Hr; [|discriminate].
  simpl in Hy. eexists. apply set_cell_Ret.
  exists (Z.to_nat row), (Z.to_nat col), r.
  assert (forall len i, 0 <= i -> (Z.to_nat i < len)%nat ->
            py_norm len i = Some (Z.to_nat i)) as Hnorm.
  { intros len i Hi Hlt. unfold py_norm.
    destruct (Z.leb_spec 0 i); [|lia].
    destruct (Z.ltb_spec i (Z.of_nat len)); [reflexivity|lia]. }
  repeat split; [| exact Hr | ].
  - apply Hnorm; [lia|]. eauto using lookup_lt_Some.
  - apply Hnorm; [lia|]. eauto using lookup_lt_Some.
Qed.

Lemma fits_same_shape n (g' g : grid) : same_shape g' g -> fits n g -> fits n g'.
Proof.
  intros Hs Hf a b Ha Hb. destruct (Hf a b Ha Hb) as [x Hx].
  unfold cell_at in *. destruct (g !! a) as [r|] eqn:Hr; [|discriminate].
  destruct (Forall2_lookup_r _ _ _ _ _ Hs Hr) as (r' & -> & Hlen). simpl in *.
  apply lookup_lt_is_Some. rewrite Hlen. eauto using lookup_lt_Some.
Qed.

Lemma fits_get_cell n (g : grid) row col :
  fits n g -> 0 <= row < n -> 0 <= col < n -> exists x, get_cell g row col = Ret x.
Proof.
  intros Hf Hrow Hcol. rewrite get_cell_nonneg by lia.
  destruct (Hf (Z.to_nat row) (Z.to_nat col)) as [x ->]; [lia..|]. now exists x.
Qed.

Lemma fits_row_string n (g : grid) row :
  fits n g -> 0 <= row < n -> exists rs, row_string g row = Ret rs.
Proof.
  intros Hf Hrow. unfold row_string. rewrite py_get_nonneg by lia.
  destruct (Hf (Z.to_nat row) 0%nat) as [x Hx]; [lia..|].
  unfold cell_at in Hx. destruct (g !! Z.to_nat row) as [r|]; [|discriminate].
  simpl. eauto.
Qed.

Lemma mapM_outcome_Ret {A B} (f : A -> outcome B) (l : list A) :
  (forall x, x ∈ l -> exists y, f x = Ret y) -> exists ys, mapM f l = Ret ys.
Proof.
  induction l as [|x l IH]; intros H; simpl; [now exists []|].
  destruct (H x) as [y ->]; [apply list_elem_of_here|].
  destruct IH as [ys ->]; [intros z Hz; apply H; now apply list_elem_of_further|].
  simpl. eauto.
Qed.

Lemma fits_col_string n (g : grid) col :
  fits n g -> 0 <= col < n -> exists cs, col_string g n col = Ret cs.
Proof.
  intros Hf Hcol. unfold col_string.
  destruct (mapM_outcome_Ret (fun r => get_cell g r col) (range n)) as [ys ->].
  - intros r Hr%elem_of_range. now apply (fits_get_cell n).
  - simpl. eauto.
Qed.

Lemma checks_fits_raise p (g : grid) row col e :
  fits (size p) g ->
  size p <= Z.of_nat (length (row_regex p)) ->
  size p <= Z.of_nat (length (col_regex p)) ->
  0 <= row < size p -> 0 <= col < size p ->
  checks p g row col = Raise e -> pattern_error p e.
Proof.
  intros Hf Hlr Hlc Hrow Hcol. unfold checks.
  destruct (fits_row_string _ _ _ Hf Hrow) as [rs ->].
  destruct (fits_col_string _ _ _ Hf Hcol) as [cs ->].
  destruct (py_get_in_range (row_regex p) row) as [rp Hrp]; [lia|].
  destruct (py_get_in_range (col_regex p) col) as [cp Hcp]; [lia|].
  rewrite Hrp. simpl.
  destruct (check_regex rp rs) as [[|]|e'] eqn:E; simpl; [|discriminate|].
  - rewrite Hcp. simpl. intros H%check_regex_raise. exists cp.
    split; [|exact H]. apply elem_of_app. right. eapply py_get_elem, Hcp.
  - intros [= <-]. apply check_regex_raise in E. exists rp.
    split; [|exact E]. apply elem_of_app. left. eapply py_get_elem, Hrp.
Qed.

Lemma try_letters_fits_raise (rec : grid -> result) p row col :
  size p <= Z.of_nat (length (row_regex p)) ->
  size p <= Z.of_nat (length (col_regex p)) ->
  0 <= row < size p -> 0 <= col < size p ->
  (forall h r h', rec h = Some (r, h') -> same_shape h' h) ->
  (forall h e h', fits (size p) h -> rec h = Some (Raise e, h') -> pattern_error p e) ->
  forall letters h e g',
    fits (size p) h ->
    try_letters rec p row col letters h = Some (Raise e, g') -> pattern_error p e.
Proof.
  intros Hlr Hlc Hrow Hcol Hshape Hrec.
  induction letters as [|letter rest IH]; intros h e g' Hf; simpl.
  - destruct (fits_set_cell _ h row col "" Hf Hrow Hcol) as [hx ->]. discriminate.
  - destruct (fits_set_cell _ h row col letter Hf Hrow Hcol) as [g1 E]. rewrite E. simpl.
    assert (H1 : fits (size p) g1)
      by (eapply fits_same_shape; [eapply set_cell_same_shape, E|exact Hf]).
    destruct (checks p g1 row col) as [[|]|e'] eqn:C;
      [|now apply IH|intros [= <- _]; now apply (checks_fits_raise p g1 row col)].
    destruct (rec g1) as [[[[|]|e'] g2]|] eqn:R; try discriminate.
    + apply IH. eapply fits_same_shape; [eapply Hshape, R|exact H1].
    + intros [= <- _]. eapply Hrec; [exact H1|exact R].
Qed.

Lemma solve_fits_raise (p : puzzle) (fuel : nat) : forall g row col e g',
  size p <= Z.of_nat (length (row_regex p)) ->
  size p <= Z.of_nat (length (col_regex p)) ->
  0 <= row <= size p -> 0 <= col < size p ->
  fits (size p) g ->
  solve fuel g p row col = Some (Raise e, g') -> pattern_error p e.
Proof.
  induction fuel as [|fuel IH]; intros g row col e g' Hlr Hlc Hrow Hcol Hf; simpl;
    [discriminate|].
  destruct (Z.eqb_spec row (size p)) as [E|E]; [discriminate|].
  destruct (Z.eqb_spec (size p) 0) as [E0|E0]; [lia|].
  destruct (next_position_later (size p) row col) as (_ & Hnr & Hnc); [lia..|].
  apply try_letters_fits_raise; try assumption; try lia.
  - intros h r h'. apply solve_shape.
  - intros h e' h' Hh. now apply IH.
Qed.

Lemma solve_start_raise (fuel : nat) (g : grid) (p : puzzle)
    (e : exn) (g' : grid) :
  0 <= size p -> fits (size p) g ->
  size p <= Z.of_nat (length (row_regex p)) ->
  size p <= Z.of_nat (length (col_regex p)) ->
  solve fuel g p 0 0 = Some (Raise e, g') ->
  pattern_error p e.
Proof.
  intros Hn Hf Hlr Hlc H. destruct (Z.eq_dec (size p) 0) as [E0|E0].
  - destruct fuel; simpl in H; [discriminate|]. rewrite E0 in H. discriminate.
  - apply (solve_fits_raise p fuel g 0 0 e g'); try assumption; lia.
Qed.

(** On a grid that has the cells of the size-by-size square, with at least
    size row patterns and size column patterns, the only exceptions [solve]
    can end with are those of compiling one of the patterns: no index is out
    of range and no division by zero happens. *)
Theorem solve_raises_only_pattern_errors (fuel : nat) (g : grid) (p : puzzle)
    (e : exn) (g' : grid) :
  0 <= size p -> fits (size p) g ->
  size p <= Z.of_nat (length (row_regex p)) ->
  size p <= Z.of_nat (length (col_regex p)) ->
  solve fuel g p 0 0 = Some (Raise e, g') ->
  pattern_error p e.
Proof. exact (solve_start_raise fuel g p e g'). Qed.

Lemma empty_grid_fits n : fits n (empty_grid n).
Proof.
  intros a b Ha Hb. unfold cell_at, empty_grid.
  rewrite lookup_replicate_2 by lia. simpl.
  rewrite lookup_replicate_2 by lia. eauto.
Qed.

Lemma solve_raises_only_pattern_errors_witness :
  0 <= size puzzle_bad_pattern /\
  fits (size puzzle_bad_pattern) (empty_grid 2) /\
  size puzzle_bad_pattern <= Z.of_nat (length (row_regex puzzle_bad_pattern)) /\
  size puzzle_bad_pattern <= Z.of_nat (length (col_regex puzzle_bad_pattern)) /\
  solve 5 (empty_grid 2) puzzle_bad_pattern 0 0
    = Some (Raise ReError, [["A"; "B"]; ["A"; ""]]) /\
  pattern_error puzzle_bad_pattern ReError.
Proof.
  assert (H0 : 0 <= size puzzle_bad_pattern) by (simpl; lia).
  assert (H1 : fits (size puzzle_bad_pattern) (empty_grid 2))
    by apply (empty_grid_fits 2).
  assert (H2 : size puzzle_bad_pattern
                 <= Z.of_nat (length (row_regex puzzle_bad_pattern))) by (simpl; lia).
  assert (H3 : size puzzle_bad_pattern
                 <= Z.of_nat (length (col_regex puzzle_bad_pattern))) by (simpl; lia).
  repeat (split; [first [assumption | reflexivity]|]).
  exact (solve_raises_only_pattern_errors 5 (empty_grid 2) puzzle_bad_pattern
           ReError [["A"; "B"]; ["A"; ""]] H0 H1 H2 H3 eq_refl).
Defined.

(** On such a grid and puzzle, if moreover every pattern compiles, [solve]
    returns True or False within size*size nested calls: it ends with no
    exception. *)
Theorem solve_returns_bool (g : grid) (p : puzzle) :
  0 <= size p -> fits (size p) g ->
  size p <= Z.of_nat (length (row_regex p)) ->
  size p <= Z.of_nat (length (col_regex p)) ->
  (forall pattern, pattern ∈ row_regex p ++ col_regex p ->
     exists r, re_compile pattern = Ret r) ->
  exists b g', solve (S (Z.to_nat (size p * size p))) g p 0 0 = Some (Ret b, g').
Proof.
  intros Hn Hf Hlr Hlc Hpat.
  destruct (solve_total_from p (S (Z.to_nat (size p * size p))) g 0 0)
    as [[[b|e] g'] H]; [lia|lia|lia|eauto|].
  exfalso.
  destruct (solve_start_raise _ _ _ _ _ Hn Hf Hlr Hlc H)
    as (pattern & Hin & Hc).
  destruct (Hpat pattern Hin) as [r Hr]. congruence.
Qed.

Lemma solve_returns_bool_witness :
  exists b g', solve (S (Z.to_nat (size puzzle_ab * size puzzle_ab)))
                 (empty_grid 2) puzzle_ab 0 0 = Some (Ret b, g').
Proof.
  apply (solve_returns_bool (empty_grid 2) puzzle_ab).
  - simpl; lia.
  - apply (empty_grid_fits 2).
  - simpl; lia.
  - simpl; lia.
  - intros pattern Hin. simpl in Hin.
    repeat (apply elem_of_cons in Hin as [->|Hin]; [eexists; reflexivity|]).
    now apply elem_of_nil in Hin.
Defined.

(** ** The search is exhaustive *)

Lemma beforeb_spec a b row col : beforeb a b row col = true <-> before a b row col.
Proof.
  unfold beforeb, before.
  rewrite orb_true_iff, andb_true_iff, !Z.ltb_lt, Z.eqb_eq. reflexivity.
Qed.

Lemma cell_at_upto (g : grid) row col a b :
  cell_at (upto g row col) a b
    = (fun x => if beforeb a b row (col + 1) then x else EmptyString) <$> cell_at g a b.
Proof.
  unfold cell_at, upto. rewrite list_lookup_imap.
  destruct (g !! a) as [r|]; simpl; [|reflexivity]. apply list_lookup_imap.
Qed.

Lemma same_shape_sym g' g : same_shape g' g -> same_shape g g'.
Proof.
  unfold same_shape. intros H. apply Forall2_flip.
  eapply Forall2_impl; [exact H|]. simpl. auto.
Qed.

Lemma upto_same_shape (g : grid) row col : same_shape (upto g row col) g.
Proof.
  unfold same_shape, upto.
  apply Forall2_same_length_lookup_2; [apply length_imap|].
  intros a r' r Hr' Hr. rewrite list_lookup_imap, Hr in Hr'.
  injection Hr' as <-. apply length_imap.
Qed.

Lemma same_shape_is_Some (g' g : grid) a b :
  same_shape g' g -> is_Some (cell_at g a b) -> is_Some (cell_at g' a b).
Proof.
  intros Hs [x Hx]. unfold cell_at in *.
  destruct (g !! a) as [r|] eqn:Hr; [|discriminate].
  destruct (Forall2_lookup_r _ _ _ _ _ Hs Hr) as (r' & -> & Hlen). simpl in *.
  apply lookup_lt_is_Some. rewrite Hlen. eauto using lookup_lt_Some.
Qed.

Lemma same_shape_None (g' g : grid) a b :
  same_shape g' g -> cell_at g a b = None -> cell_at g' a b = None.
Proof.
  intros Hs Hn. destruct (cell_at g' a b) as [x|] eqn:E; [|reflexivity].
  destruct (same_shape_is_Some g g' a b) as [y Hy];
    [now apply same_shape_sym|eauto|congruence].
Qed.

(** Grids of the same shape with the same cells are equal. *)
Lemma grid_ext (g2 g1 : grid) :
  same_shape g2 g1 -> (forall a b, cell_at g2 a b = cell_at g1 a b) -> g2 = g1.
Proof.
  intros Hs Hc. apply list_eq. intros a. now apply row_agree.
Qed.

Lemma square_cell n (g : grid) a b x :
  same_shape g (empty_grid n) -> cell_at g a b = Some x ->
  Z.of_nat a < n /\ Z.of_nat b < n.
Proof.
  intros Hs Hx. unfold cell_at in Hx.
  destruct (g !! a) as [r|] eqn:Hr; [|discriminate]. simpl in Hx.
  destruct (Forall2_lookup_l _ _ _ _ _ Hs Hr) as (r0 & Hr0 & Hlen).
  unfold empty_grid in Hr0. apply lookup_replicate in Hr0 as [-> Ha].
  rewrite length_replicate in Hlen. apply lookup_lt_Some in Hx. lia.
Qed.

Lemma set_cell_empty_from n (g g1 : grid) row col x :
  0 <= row -> 0 <= col < n ->
  empty_from g row col -> set_cell g row col x = Ret g1 ->
  empty_from g1 (next_row n row col) (next_col n col).
Proof.
  intros Hrow Hcol He Hset a b y Hy.
  destruct (decide (a = Z.to_nat row /\ b = Z.to_nat col)) as [[-> ->]|Hne].
  - left. unfold before.
    destruct (next_position_cases n row col Hcol) as [(-> & -> & ?)|(-> & -> & ?)]; lia.
  - rewrite (set_cell_cell_at_other g g1 row col x a b) in Hy; [|lia|lia|exact Hset|lia].
    destruct (He a b y Hy) as [Hb|Hb]; [left; now apply before_next|now right].
Qed.

(** Writing the candidate's letter into the grid of the search gives the
    candidate cut off after that cell. *)
Lemma set_cell_upto n (g a ga : grid) row col x :
  0 <= row < n -> 0 <= col < n ->
  same_shape g (empty_grid n) -> same_shape a (empty_grid n) ->
  empty_from g row col ->
  (forall a' b', before a' b' row col -> cell_at a a' b' = cell_at g a' b') ->
  get_cell a row col = Ret x ->
  set_cell g row col x = Ret ga ->
  ga = upto a row col.
Proof.
  intros Hrow Hcol Hg Ha He Hagree Hx Hset.
  assert (Hga : same_shape ga g) by (eapply set_cell_same_shape, Hset).
  assert (Hag : same_shape a g)
    by (eapply same_shape_trans; [exact Ha|now apply same_shape_sym]).
  apply grid_ext.
  { eapply same_shape_trans; [exact Hga|].
    eapply same_shape_trans; [apply same_shape_sym, Hag|].
    apply same_shape_sym, upto_same_shape. }
  intros a' b'. rewrite cell_at_upto.
  rewrite get_cell_nonneg in Hx by lia.
  destruct (decide (a' = Z.to_nat row /\ b' = Z.to_nat col)) as [[-> ->]|Hne].
  - apply set_cell_get_cell in Hset. rewrite get_cell_nonneg in Hset by lia.
    assert (beforeb (Z.to_nat row) (Z.to_nat col) row (col + 1) = true) as ->
      by (apply beforeb_spec; unfold before; lia).
    destruct (cell_at ga _ _), (cell_at a _ _); simpl in *; congruence.
  - rewrite (set_cell_cell_at_other g ga row col x a' b'); [|lia|lia|exact Hset|lia].
    destruct (beforeb a' b' row (col + 1)) eqn:B.
    + apply beforeb_spec in B. rewrite Hagree by (unfold before in *; lia).
      now destruct (cell_at g a' b').
    + assert (~ before a' b' row col) as Hnb.
      { intros Hb. apply not_true_iff_false in B. apply B, beforeb_spec.
        unfold before in *. lia. }
      destruct (cell_at g a' b') as [y|] eqn:Ey.
      * destruct (He a' b' y Ey) as [?| ->]; [contradiction|].
        destruct (same_shape_is_Some a g a' b' Hag) as [z ->]; eauto.
      * now rewrite (same_shape_None a g a' b' Hag Ey).
Qed.

Lemma try_letters_exhaustive (rec : grid -> result) p row col (g ga : grid) xa :
  (forall x g1 g2, set_cell g row col x = Ret g1 ->
     rec g1 = Some (Ret false, g2) -> g2 = g1) ->
  set_cell g row col xa = Ret ga ->
  checks p ga row col = Ret true ->
  (forall g2, rec ga = Some (Ret false, g2) -> False) ->
  forall letters h g',
    xa ∈ letters ->
    (forall x, set_cell h row col x = set_cell g row col x) ->
    try_letters rec p row col letters h = Some (Ret false, g') -> False.
Proof.
  intros Hundo Hga Hchk Hrec.
  induction letters as [|letter rest IH]; intros h g' Hin Hh; simpl.
  - now apply elem_of_nil in Hin.
  - rewrite Hh. destruct (set_cell g row col letter) as [g1|e] eqn:E; simpl;
      [|discriminate].
    assert (H1 : forall x, set_cell g1 row col x = set_cell g row col x)
      by (intros x; eapply set_cell_overwrite, E).
    destruct (decide (letter = xa)) as [->|Hne].
    + assert (g1 = ga) as -> by congruence. rewrite Hchk.
      destruct (rec ga) as [[[[|]|e] g2]|] eqn:R; try discriminate.
      intros _. now apply (Hrec g2).
    + apply elem_of_cons in Hin as [Hin|Hin]; [congruence|].
      destruct (checks p g1 row col) as [[|]|e]; [|now apply IH|discriminate].
      destruct (rec g1) as [[[[|]|e] g2]|] eqn:R; try discriminate.
      rewrite (Hundo _ _ _ E R). now apply IH.
Qed.

Lemma solve_exhaustive (p : puzzle) (a : grid) (fuel : nat) :
  filling p a ->
  forall g row col g',
    0 <= row <= size p -> 0 <= col < size p ->
    same_shape g (empty_grid (size p)) ->
    empty_from g row col ->
    (forall a' b', before a' b' row col -> cell_at a a' b' = cell_at g a' b') ->
    passes_from p a row col ->
    solve fuel g p row col = Some (Ret false, g') -> False.
Proof.
  intros [Ha Hletters].
  induction fuel as [|fuel IH]; intros g row col g' Hrow Hcol Hg He Hagree Hpass;
    simpl; [discriminate|].
  destruct (Z.eqb_spec row (size p)) as [E|E]; [discriminate|].
  destruct (size p =? 0); [discriminate|].
  destruct (Hletters row col) as (xa & Hxa & Hin); [lia..|].
  assert (Hfit : fits (size p) g)
    by (eapply fits_same_shape; [exact Hg|apply empty_grid_fits]).
  destruct (fits_set_cell _ g row col xa Hfit) as [ga Hga]; [lia..|].
  assert (Eg : ga = upto a row col)
    by (apply (set_cell_upto (size p) g a ga row col xa); auto; lia).
  destruct (next_position_later (size p) row col) as (_ & Hnr & Hnc); [lia..|].
  apply (try_letters_exhaustive _ p row col g ga xa); auto.
  - intros x g1 g2 E1 R. eapply solve_fail_restores; [| |
      eapply set_cell_empty_from; [| |exact He|exact E1]|exact R]; lia.
  - rewrite Eg. apply Hpass; [lia..|]. unfold before. lia.
  - intros g2. apply IH; auto.
    + eapply same_shape_trans; [eapply set_cell_same_shape, Hga|exact Hg].
    + eapply set_cell_empty_from; [| |exact He|exact Hga]; lia.
    + intros a' b' Hb. rewrite Eg, cell_at_upto.
      destruct (beforeb a' b' row (col + 1)) eqn:B; [now destruct (cell_at a a' b')|].
      destruct (cell_at a a' b') as [y|] eqn:Ey; [|reflexivity].
      exfalso. apply (square_cell _ _ _ _ _ Ha) in Ey.
      apply not_true_iff_false in B. apply B, beforeb_spec.
      unfold before in *.
      destruct (next_position_cases (size p) row col Hcol)
        as [(En & Ec & ?)|(En & Ec & ?)]; rewrite En, Ec in Hb; lia.
    + intros i j Hi Hj Hn. apply Hpass; auto.
      intros Hb. apply Hn. now apply before_next.
Qed.

Lemma solve_S fuel (g : grid) p row col :
  solve (S fuel) g p row col =
    if row =? size p then Some (Ret true, g)
    else if size p =? 0 then Some (Raise ZeroDivisionError, g)
    else try_letters
           (fun g1 => solve fuel g1 p (next_row (size p) row col)
                            (next_col (size p) col))
           p row col (alphabet p) g.
Proof. reflexivity. Qed.

(** When [solve], started on the empty grid of the puzzle's size, returns
    False, no grid of that size filled with letters of the alphabet passes
    the two tests of the loop body at every cell, each test taken with the
    cells after that cell still empty: every candidate was tried or cut off by
    a failing test. *)
Theorem solve_failure_exhaustive (fuel : nat) (p : puzzle) (g' a : grid) :
  solve fuel (empty_grid (size p)) p 0 0 = Some (Ret false, g') ->
  filling p a ->
  ~ (forall i j, 0 <= i < size p -> 0 <= j < size p ->
       checks p (upto a i j) i j = Ret true).
Proof.
  intros H Hfill Hpass. destruct (Z_le_gt_dec (size p) 0) as [Hn|Hn].
  - destruct fuel; [discriminate|]. rewrite solve_S in H.
    destruct (Z.eqb_spec 0 (size p)) as [E|E]; [discriminate|].
    destruct (Z.eqb_spec (size p) 0) as [E0|E0]; [lia|].
    assert (empty_grid (size p) = []) as Hnil
      by (unfold empty_grid; now replace (Z.to_nat (size p)) with 0%nat by lia).
    rewrite Hnil in H. destruct (alphabet p); simpl in H; discriminate.
  - apply (solve_exhaustive p a fuel Hfill (empty_grid (size p)) 0 0 g');
      try lia; auto.
    + apply same_shape_refl.
    + intros a' b' x Hx. right. unfold cell_at, empty_grid in Hx.
      destruct (replicate _ _ !! a') as [r|] eqn:Hr; [|discriminate].
      apply lookup_replicate in Hr as [-> _]. simpl in Hx.
      now apply lookup_replicate in Hx as [-> _].
    + intros a' b' Hb. unfold before in Hb. lia.
    + intros i j Hi Hj _. now apply Hpass.
Qed.

Lemma solve_failure_exhaustive_witness :
  solve 5 (empty_grid (size puzzle_ab)) puzzle_ab 0 0
    = Some (Ret false, empty_grid 2) /\
  filling puzzle_ab [["A"; "B"]; ["B"; "A"]] /\
  ~ (forall i j, 0 <= i < size puzzle_ab -> 0 <= j < size puzzle_ab ->
       checks puzzle_ab (upto [["A"; "B"]; ["B"; "A"]] i j) i j = Ret true).
Proof.
  assert (Hfill : filling puzzle_ab [["A"; "B"]; ["B"; "A"]]).
  { split; [repeat constructor|]. simpl. intros i j Hi Hj.
    assert (i = 0 \/ i = 1) as [-> | ->] by lia;
      assert (j = 0 \/ j = 1) as [-> | ->] by lia;
      eexists; (split; [reflexivity|]);
      repeat first [apply list_elem_of_here | apply list_elem_of_further]. }
  split; [reflexivity|]. split; [exact Hfill|].
  exact (solve_failure_exhaustive 5 puzzle_ab (empty_grid 2)
           [["A"; "B"]; ["B"; "A"]] eq_refl Hfill).
Defined.

(** ** The grid of a successful search *)

Lemma try_letters_success_from (rec : grid -> result) p row col (g : grid) :
  (forall x g1 g2, set_cell g row col x = Ret g1 ->
     rec g1 = Some (Ret false, g2) -> g2 = g1) ->
  forall letters h g',
    (forall x, set_cell h row col x = set_cell g row col x) ->
    try_letters rec p row col letters h = Some (Ret true, g') ->
    exists letter g1, letter ∈ letters /\ set_cell g row col letter = Ret g1 /\
      checks p g1 row col = Ret true /\ rec g1 = Some (Ret true, g').
Proof.
  intros Hundo. induction letters as [|letter rest IH]; intros h g' Hh; simpl.
  - destruct (set_cell h row col ""); simpl; discriminate.
  - rewrite Hh. destruct (set_cell g row col letter) as [g1|e] eqn:E; simpl;
      [|discriminate].
    assert (H1 : forall x, set_cell g1 row col x = set_cell g row col x)
      by (intros x; eapply set_cell_overwrite, E).
    assert (Hrest : try_letters rec p row col rest g1 = Some (Ret true, g') ->
              exists letter' g1', letter' ∈ letter :: rest /\
                set_cell g row col letter' = Ret g1' /\
                checks p g1' row col = Ret true /\ rec g1' = Some (Ret true, g')).
    { intros (l' & g1' & Hin & Hrest)%IH; [|exact H1]. exists l', g1'.
      split; [now apply list_elem_of_further|exact Hrest]. }
    destruct (checks p g1 row col) as [[|]|e] eqn:C; [|exact Hrest|discriminate].
    destruct (rec g1) as [[[[|]|e] g2]|] eqn:R; try discriminate.
    + intros [= <-]. exists letter, g1. repeat split; auto. apply list_elem_of_here.
    + rewrite (Hundo _ _ _ E R). exact Hrest.
Qed.

Lemma solve_success_accepted (p : puzzle) (fuel : nat) : forall g row col g',
  0 <= row <= size p -> 0 <= col < size p ->
  same_shape g (empty_grid (size p)) ->
  empty_from g row col ->
  solve fuel g p row col = Some (Ret true, g') ->
  passes_from p g' row col.
Proof.
  induction fuel as [|fuel IH]; intros g row col g' Hrow Hcol Hg He;
    [discriminate|]. rewrite solve_S.
  destruct (Z.eqb_spec row (size p)) as [E|E].
  { intros _ i j Hi Hj Hn. exfalso. apply Hn. left. lia. }
  destruct (size p =? 0); [discriminate|].
  destruct (next_position_later (size p) row col) as (_ & Hnr & Hnc); [lia..|].
  intros H.
  assert (Hundo : forall x h1 h2, set_cell g row col x = Ret h1 ->
            solve fuel h1 p (next_row (size p) row col) (next_col (size p) col)
              = Some (Ret false, h2) -> h2 = h1).
  { intros x h1 h2 E1 R. eapply solve_fail_restores; [| |
      eapply set_cell_empty_from; [| |exact He|exact E1]|exact R]; lia. }
  destruct (try_letters_success_from _ p row col g Hundo _ _ _ (fun x => eq_refl) H)
    as (letter & g1 & _ & Hset & Hchk & R).
  assert (Hg1 : same_shape g1 (empty_grid (size p)))
    by (eapply same_shape_trans; [eapply set_cell_same_shape, Hset|exact Hg]).
  assert (He1 : empty_from g1 (next_row (size p) row col) (next_col (size p) col))
    by (eapply set_cell_empty_from; [| |exact He|exact Hset]; lia).
  pose proof (solve_shape _ _ _ _ _ _ _ R) as Hshape.
  assert (Hcut : upto g' row col = g1).
  { apply grid_ext.
    - eapply same_shape_trans; [apply upto_same_shape|exact Hshape].
    - intros a b. rewrite cell_at_upto.
      destruct (beforeb a b row (col + 1)) eqn:B.
      + apply beforeb_spec in B.
        rewrite (solve_cells_before _ _ _ _ _ _ _ a b (proj1 Hnr) Hnc R).
        * now destruct (cell_at g1 a b).
        * unfold before in *.
          destruct (next_position_cases (size p) row col Hcol)
            as [(-> & -> & ?)|(-> & -> & ?)]; lia.
      + destruct (cell_at g1 a b) as [y|] eqn:Ey.
        * destruct (same_shape_is_Some g' g1 a b Hshape) as [z ->]; [eauto|]. simpl.
          f_equal. destruct (He1 a b y Ey) as [Hb|Hb]; [|now symmetry].
          exfalso. apply (square_cell _ _ _ _ _ Hg1) in Ey.
          apply not_true_iff_false in B. apply B, beforeb_spec.
          unfold before in *.
          destruct (next_position_cases (size p) row col Hcol)
            as [(En & Ec & ?)|(En & Ec & ?)]; rewrite En, Ec in Hb; lia.
        * now rewrite (same_shape_None g' g1 a b Hshape Ey). }
  pose proof (IH _ _ _ _ Hnr Hnc Hg1 He1 R) as Hnext.
  intros i j Hi Hj Hn.
  destruct (decide (i = row /\ j = col)) as [[-> ->]|Hne].
  - now rewrite Hcut.
  - apply Hnext; auto. unfold before in *.
    destruct (next_position_cases (size p) row col Hcol)
      as [(-> & -> & ?)|(-> & -> & ?)]; lia.
Qed.

Lemma empty_grid_empty_from n row col : empty_from (empty_grid n) row col.
Proof.
  intros a b x Hx. right. unfold cell_at, empty_grid in Hx.
  destruct (replicate _ _ !! a) as [r|] eqn:Hr; [|discriminate].
  apply lookup_replicate in Hr as [-> _]. simpl in Hx.
  now apply lookup_replicate in Hx as [-> _].
Qed.

Lemma solve_success_filling (fuel : nat) (p : puzzle) (g' : grid) :
  solve fuel (empty_grid (size p)) p 0 0 = Some (Ret true, g') ->
  filling p g' /\
  forall i j, 0 <= i < size p -> 0 <= j < size p ->
    checks p (upto g' i j) i j = Ret true.
Proof.
  intros H. split; [split|].
  - eapply solve_shape, H.
  - intros i j Hi Hj. eapply solve_success_get_cell; eauto.
  - intros i j Hi Hj.
    apply (solve_success_accepted p fuel (empty_grid (size p)) 0 0 g'); auto; try lia.
    + apply same_shape_refl.
    + apply empty_grid_empty_from.
    + unfold before. lia.
Qed.

(** When [solve], started on the empty grid of the puzzle's size, returns
    True, the grid it leaves is a grid of that size filled with letters of the
    alphabet that passes the two tests of the loop body at every cell, each
    test taken with the cells after that cell still empty.  With the previous
    property: True is returned only with such a grid, False only when there
    is none. *)
Theorem solve_success_accepted_filling (fuel : nat) (p : puzzle) (g' : grid) :
  solve fuel (empty_grid (size p)) p 0 0 = Some (Ret true, g') ->
  filling p g' /\
  forall i j, 0 <= i < size p -> 0 <= j < size p ->
    checks p (upto g' i j) i j = Ret true.
Proof. exact (solve_success_filling fuel p g'). Qed.

Lemma solve_success_accepted_filling_witness :
  solve 5 (empty_grid (size puzzle_single_a)) puzzle_single_a 0 0
    = Some (Ret true, [["A"; "A"]; ["A"; "A"]]) /\
  filling puzzle_single_a [["A"; "A"]; ["A"; "A"]] /\
  checks puzzle_single_a (upto [["A"; "A"]; ["A"; "A"]] 0 1) 0 1 = Ret true.
Proof.
  split; [reflexivity|].
  destruct (solve_success_accepted_filling 5 puzzle_single_a
              [["A"; "A"]; ["A"; "A"]] eq_refl) as [Hf Hp].
  split; [exact Hf|]. apply Hp; simpl; lia.
Defined.

(** ** Further edge behaviour *)

(** A text that the pattern matches in full passes [check_regex]: the check
    is never stricter than [re.fullmatch]. *)
Theorem check_regex_accepts_fullmatch (pattern text : string) :
  re_fullmatch pattern text = Ret true -> check_regex pattern text = Ret true.
Proof.
  unfold check_regex, re_fullmatch, re_match. rewrite str_in_empty.
  destruct (re_compile pattern) as [r|e]; simpl; [|discriminate].
  intros [= H]. f_equal. now apply accepts_accepts_prefix.
Qed.

Lemma check_regex_accepts_fullmatch_witness :
  re_fullmatch "A+B" "AAB" = Ret true /\ check_regex "A+B" "AAB" = Ret true.
Proof.
  split; [reflexivity|]. apply (check_regex_accepts_fullmatch "A+B" "AAB"). reflexivity.
Defined.

(** A call below the grid, at a row greater than the size, never returns
    True: the row only grows from there and the test [row == size] that ends
    the search is never met. *)
Theorem solve_beyond_size_never_true (fuel : nat) (g : grid) (p : puzzle)
    (row col : Z) (g' : grid) :
  size p < row -> 0 <= col < size p ->
  solve fuel g p row col <> Some (Ret true, g').
Proof.
  revert g row col g'.
  induction fuel as [|fuel IH]; intros g row col g' Hrow Hcol; [discriminate|].
  rewrite solve_S. destruct (Z.eqb_spec row (size p)) as [E|E]; [lia|].
  destruct (size p =? 0); [discriminate|].
  intros (h1 & letter & g1 & _ & _ & _ & R)%try_letters_success_inv.
  revert R.
  destruct (next_position_cases (size p) row col Hcol)
    as [(En & Ec & ?)|(En & Ec & ?)]; apply IH; lia.
Qed.

Lemma solve_beyond_size_never_true_witness :
  size puzzle_single_a < 3 /\ 0 <= 0 < size puzzle_single_a /\
  solve 5 [[""; ""]; [""; ""]; [""; ""]; [""; ""]] puzzle_single_a 3 0
    <> Some (Ret true, [[""; ""]; [""; ""]; [""; ""]; ["A"; "A"]]).
Proof.
  assert (H0 : size puzzle_single_a < 3) by (simpl; lia).
  assert (H1 : 0 <= 0 < size puzzle_single_a) by (simpl; lia).
  repeat (split; [assumption|]).
  exact (solve_beyond_size_never_true 5 [[""; ""]; [""; ""]; [""; ""]; [""; ""]]
           puzzle_single_a 3 0 [[""; ""]; [""; ""]; [""; ""]; ["A"; "A"]] H0 H1).
Defined.

(** ** The script *)

(** When the script gets as far as printing a grid, the grid is either the
    empty grid of the puzzle's size, which is what it prints when [solve] has
    returned False, or a grid of letters of the alphabet on which both tests
    pass at every cell: a partly filled grid is never printed. *)
Theorem main_prints_empty_or_checked (fuel : nat) (raw : puzzle) (g : grid) :
  main fuel raw = Some (Ret g) ->
  g = empty_grid (size raw) \/
  (filling raw g /\
   forall i j, 0 <= i < size raw -> 0 <= j < size raw -> checks raw g i j = Ret true).
Proof.
  unfold main. destruct (load_puzzle raw) as [p|e] eqn:L; [|discriminate].
  apply load_puzzle_Ret in L as [-> _].
  destruct (solve fuel (empty_grid (size raw)) raw 0 0) as [[[[|]|e] g1]|] eqn:S;
    try discriminate; intros [= <-].
  - right. split.
    + now apply (solve_success_filling fuel raw g1).
    + intros i j Hi Hj. eapply solve_success_checks; eauto.
  - left. apply cleared_all_empty; [eapply solve_fail_cleared, S|].
    apply empty_grid_all_empty.
Qed.

Lemma main_prints_empty_or_checked_witness :
  main 5 puzzle_ab = Some (Ret (empty_grid 2)) /\
  (empty_grid 2 = empty_grid (size puzzle_ab) \/
   (filling puzzle_ab (empty_grid 2) /\
    forall i j, 0 <= i < size puzzle_ab -> 0 <= j < size puzzle_ab ->
      checks puzzle_ab (empty_grid 2) i j = Ret true)).
Proof.
  split; [reflexivity|].
  apply (main_prints_empty_or_checked 5 puzzle_ab (empty_grid 2)). reflexivity.
Defined.
